(** * blender-spritesheets: the RenderSpriteSheet operator

    A shallow embedding of [operators/renderSpriteSheet.py].  The operator is
    a Blender modal operator: [invoke] starts the job, the window manager then
    delivers events to [modal], which renders one frame per TIMER event
    ([process_step]), moves from action to action ([setup_next_action]) and
    ends with [finish] (assembler and JSON) or [cancel] (ESC).

    Python state is threaded explicitly through a small state-and-exception
    monad over a [World] record; calls into Blender, the file system and the
    assembler process are recorded in an effect log.  Those calls are taken
    to return: the exceptions kept are the ones of the operator's own
    accesses, an index out of a list and an attribute of None. *)

From Stdlib Require Import List ZArith QArith Qround String Bool Arith Lia.
From Stdlib Require Import Lqa.
Import ListNotations.

Local Open Scope string_scope.
Local Open Scope list_scope.
Local Open Scope Z_scope.

(** ** Data model *)

(** A pose marker of an action ([marker.frame] is an integer in Blender). *)
Record Marker := mkMarker {
  marker_name : string;
  frame : Z }.

(** [bpy.types.Action], restricted to what the operator reads.  The bounds of
    [frame_range] are floats; their finite values are rationals, on which
    [math.floor] and [math.ceil] are [Qfloor] and [Qceiling]. *)
Record Action := mkAction {
  name : string;
  frame_range : Q * Q;
  pose_markers : list Marker }.

(** One entry of [_animation_descs]: the dict with keys "name" and "end". *)
Record AnimationDesc := mkDesc {
  desc_name : string;
  desc_end : Z }.

(** [objectToRender.animation_data]. *)
Record AnimData := mkAnimData {
  action : option Action }.

(** [props.target]. *)
Record Object3D := mkObject {
  obj_name : string;
  animation_data : option AnimData }.

(** [scene.SpriteSheetPropertyGroup], the fields the operator uses. *)
Record SpriteSheetPropertyGroup := mkProps {
  target : option Object3D;
  onlyRenderMarkedFrames : bool;
  binPath : string;
  outputPath : string;
  tileSize : Z * Z;
  fps : Z }.

(** [scene.ProgressPropertyGroup]. *)
Record ProgressPropertyGroup := mkProgress {
  rendering : bool;
  success : bool;
  actionTotal : nat;
  actionName : string;
  actionIndex : nat;
  tileTotal : nat;
  tileIndex : Z }.

(** The state variables of the operator instance ([self]). *)
Record Operator := mkOperator {
  _timer : option nat;
  _actions : list Action;
  _action_index : nat;
  _frame_queue : list Z;
  _frame_queue_index : nat;
  _animation_descs : list AnimationDesc;
  _global_frame_end : Z }.

(** The class-level defaults of the state variables. *)
Definition RenderSpriteSheet : Operator :=
  mkOperator None [] 0 [] 0 [] 0.

(** [context.window_manager]: the live timers and whether the operator is
    registered as a modal handler. *)
Record WindowManager := mkWm {
  timers : list nat;
  next_timer : nat;
  modal_handler : bool }.

(** The payload of the .bss file written by [finish]. *)
Record JsonInfo := mkJson {
  info_name : string;
  tileWidth : Z;
  tileHeight : Z;
  frameRate : Z;
  animations : list AnimationDesc }.

(** Calls that leave the operator, in the order they are made. *)
Inductive Effect :=
| Report (level message : string)
| Print (label path_dir path_file : string)
| RenderTile (at_frame : Z)
| TagRedraw
| RunAssembler (bin_dir assembler root out : string)
| WriteBss (dir file : string) (info : JsonInfo)
| RmTree (dir sub : string).

Record World := mkWorld {
  self : Operator;
  props : SpriteSheetPropertyGroup;
  progressProps : ProgressPropertyGroup;
  data_actions : list Action;
  frame_current : Z;
  wm : WindowManager;
  area : bool;
  temp_exists : bool;
  platform_sys : string;
  log : list Effect }.

(** ** Field updates *)

Definition set_self (f : Operator -> Operator) (w : World) : World :=
  mkWorld (f (self w)) (props w) (progressProps w) (data_actions w)
    (frame_current w) (wm w) (area w) (temp_exists w) (platform_sys w) (log w).

Definition set_props (f : SpriteSheetPropertyGroup -> SpriteSheetPropertyGroup)
    (w : World) : World :=
  mkWorld (self w) (f (props w)) (progressProps w) (data_actions w)
    (frame_current w) (wm w) (area w) (temp_exists w) (platform_sys w) (log w).

Definition set_progress (f : ProgressPropertyGroup -> ProgressPropertyGroup)
    (w : World) : World :=
  mkWorld (self w) (props w) (f (progressProps w)) (data_actions w)
    (frame_current w) (wm w) (area w) (temp_exists w) (platform_sys w) (log w).

Definition set_frame_current (z : Z) (w : World) : World :=
  mkWorld (self w) (props w) (progressProps w) (data_actions w)
    z (wm w) (area w) (temp_exists w) (platform_sys w) (log w).

Definition set_wm (f : WindowManager -> WindowManager) (w : World) : World :=
  mkWorld (self w) (props w) (progressProps w) (data_actions w)
    (frame_current w) (f (wm w)) (area w) (temp_exists w) (platform_sys w) (log w).

Definition set_temp_exists (b : bool) (w : World) : World :=
  mkWorld (self w) (props w) (progressProps w) (data_actions w)
    (frame_current w) (wm w) (area w) b (platform_sys w) (log w).

Definition emit (e : Effect) (w : World) : World :=
  mkWorld (self w) (props w) (progressProps w) (data_actions w)
    (frame_current w) (wm w) (area w) (temp_exists w) (platform_sys w)
    (log w ++ [e]).

Definition with_timer (t : option nat) (o : Operator) : Operator :=
  mkOperator t (_actions o) (_action_index o) (_frame_queue o)
    (_frame_queue_index o) (_animation_descs o) (_global_frame_end o).

Definition with_actions (l : list Action) (o : Operator) : Operator :=
  mkOperator (_timer o) l (_action_index o) (_frame_queue o)
    (_frame_queue_index o) (_animation_descs o) (_global_frame_end o).

Definition with_action_index (i : nat) (o : Operator) : Operator :=
  mkOperator (_timer o) (_actions o) i (_frame_queue o)
    (_frame_queue_index o) (_animation_descs o) (_global_frame_end o).

Definition with_frame_queue (q : list Z) (o : Operator) : Operator :=
  mkOperator (_timer o) (_actions o) (_action_index o) q
    (_frame_queue_index o) (_animation_descs o) (_global_frame_end o).

Definition with_frame_queue_index (i : nat) (o : Operator) : Operator :=
  mkOperator (_timer o) (_actions o) (_action_index o) (_frame_queue o)
    i (_animation_descs o) (_global_frame_end o).

Definition with_animation_descs (d : list AnimationDesc) (o : Operator)
    : Operator :=
  mkOperator (_timer o) (_actions o) (_action_index o) (_frame_queue o)
    (_frame_queue_index o) d (_global_frame_end o).

Definition with_global_frame_end (z : Z) (o : Operator) : Operator :=
  mkOperator (_timer o) (_actions o) (_action_index o) (_frame_queue o)
    (_frame_queue_index o) (_animation_descs o) z.

Definition with_rendering (b : bool) (p : ProgressPropertyGroup) :=
  mkProgress b (success p) (actionTotal p) (actionName p) (actionIndex p)
    (tileTotal p) (tileIndex p).

Definition with_success (b : bool) (p : ProgressPropertyGroup) :=
  mkProgress (rendering p) b (actionTotal p) (actionName p) (actionIndex p)
    (tileTotal p) (tileIndex p).

Definition with_actionTotal (n : nat) (p : ProgressPropertyGroup) :=
  mkProgress (rendering p) (success p) n (actionName p) (actionIndex p)
    (tileTotal p) (tileIndex p).

Definition with_actionName (s : string) (p : ProgressPropertyGroup) :=
  mkProgress (rendering p) (success p) (actionTotal p) s (actionIndex p)
    (tileTotal p) (tileIndex p).

Definition with_actionIndex (n : nat) (p : ProgressPropertyGroup) :=
  mkProgress (rendering p) (success p) (actionTotal p) (actionName p) n
    (tileTotal p) (tileIndex p).

Definition with_tileTotal (n : nat) (p : ProgressPropertyGroup) :=
  mkProgress (rendering p) (success p) (actionTotal p) (actionName p)
    (actionIndex p) n (tileIndex p).

Definition with_tileIndex (z : Z) (p : ProgressPropertyGroup) :=
  mkProgress (rendering p) (success p) (actionTotal p) (actionName p)
    (actionIndex p) (tileTotal p) z.

Definition with_target (t : option Object3D) (p : SpriteSheetPropertyGroup) :=
  mkProps t (onlyRenderMarkedFrames p) (binPath p) (outputPath p)
    (tileSize p) (fps p).

(** ** The state-and-exception monad *)

Inductive PyError := IndexError | AttributeError.

Inductive Res (A : Type) :=
| Ok (a : A) (w : World)
| Raised (e : PyError).
Arguments Ok {A} a w.
Arguments Raised {A} e.

Definition M (A : Type) := World -> Res A.

Definition ret {A} (a : A) : M A := fun w => Ok a w.

Definition bind {A B} (m : M A) (k : A -> M B) : M B :=
  fun w => match m w with
           | Ok a w' => k a w'
           | Raised e => Raised e
           end.

Definition raise {A} (e : PyError) : M A := fun _ => Raised e.
Definition get : M World := fun w => Ok w w.
Definition modify (f : World -> World) : M unit := fun w => Ok tt (f w).

Notation "x <- m ;; k" := (bind m (fun x => k))
  (at level 61, m at next level, right associativity).
Notation "m ;;; k" := (bind m (fun _ => k))
  (at level 61, right associativity).

Definition when (b : bool) (m : M unit) : M unit :=
  if b then m else ret tt.

(** [for x in l: body(x)] *)
Fixpoint for_each {A} (l : list A) (body : A -> M unit) : M unit :=
  match l with
  | [] => ret tt
  | x :: l' => body x ;;; for_each l' body
  end.

(** ** Python and Blender primitives *)

(** [range(lo, hi)] with the default step 1; empty when [hi <= lo]. *)
Definition py_range (lo hi : Z) : list Z :=
  map (fun k => lo + Z.of_nat k) (seq 0 (Z.to_nat (hi - lo))).

(** The module-level choice of the assembler binary. *)
Definition ASSEMBLER_FILENAME (w : World) : string :=
  if String.eqb (platform_sys w) "Windows" then "assembler.exe"
  else if String.eqb (platform_sys w) "Linux" then "assembler_linux"
  else "assembler_mac".

(** [wm.event_timer_add]: a fresh handle joins the live timers. *)
Definition event_timer_add : M nat :=
  w <- get ;;
  let t := next_timer (wm w) in
  modify (set_wm (fun m => mkWm (timers m ++ [t]) (S t) (modal_handler m))) ;;;
  ret t.

(** [wm.event_timer_remove]: the handle leaves the live timers. *)
Definition event_timer_remove (t : option nat) : M unit :=
  modify (set_wm (fun m =>
    mkWm (filter (fun h => match t with
                           | Some h' => negb (Nat.eqb h h')
                           | None => true
                           end) (timers m))
         (next_timer m) (modal_handler m))).

(** [wm.modal_handler_add(self)] *)
Definition modal_handler_add : M unit :=
  modify (set_wm (fun m => mkWm (timers m) (next_timer m) true)).

(** ** The operator *)

Definition frame_count (frame_range : Q * Q) : Z * Z * Z :=
  let frameMin := Qfloor (fst frame_range) in
  let frameMax := Qceiling (snd frame_range) in
  (frameMax - frameMin, frameMin, frameMax).

Inductive EventType := ESC | TIMER | OTHER.

Inductive OpResult := RUNNING_MODAL | CANCELLED | FINISHED | PASS_THROUGH.

(** [self._actions[self._action_index]] *)
Definition current_action_of : M Action :=
  w <- get ;;
  match nth_error (_actions (self w)) (_action_index (self w)) with
  | Some a => ret a
  | None => raise IndexError
  end.

(** [objectToRender.animation_data.action = current_action]; fails when the
    target or its animation data is None. *)
Definition assign_action (a : Action) : M unit :=
  w <- get ;;
  match target (props w) with
  | Some o =>
      match animation_data o with
      | Some _ =>
          modify (set_props (with_target
            (Some (mkObject (obj_name o) (Some (mkAnimData (Some a)))))))
      | None => raise AttributeError
      end
  | None => raise AttributeError
  end.

(** Prepares the next action and generates the list of frames to render for
    it. *)
Definition setup_next_action : M unit :=
  current_action <- current_action_of ;;
  w <- get ;;
  (* Update UI Data *)
  modify (set_progress (with_actionName (name current_action))) ;;;
  modify (set_progress (with_actionIndex (_action_index (self w)))) ;;;
  (* Set the action on the object *)
  assign_action current_action ;;;
  (* Determine which frames to render (Marked vs Range) *)
  modify (set_self (with_frame_queue [])) ;;;
  modify (set_self (with_frame_queue_index 0)) ;;;
  let actionPoseMarkers := pose_markers current_action in
  (if onlyRenderMarkedFrames (props w)
      && negb (Nat.eqb (List.length actionPoseMarkers) 0)
      && (0 <? List.length actionPoseMarkers)%nat
   then
     (* Case A: Marked Frames *)
     for_each actionPoseMarkers (fun marker =>
       modify (set_self (fun o =>
         with_frame_queue (_frame_queue o ++ [frame marker]) o)))
   else
     (* Case B: Frame Range *)
     let '(_, frameMin, frameMax) := frame_count (frame_range current_action) in
     modify (set_self (with_frame_queue (py_range frameMin (frameMax + 1))))) ;;;
  (* Update Total Tiles count for the progress bar *)
  modify (fun w1 =>
    set_progress (with_tileTotal (List.length (_frame_queue (self w1)))) w1) ;;;
  (* Calculate metadata for JSON (width of the action) *)
  let '(count, _, _) := frame_count (frame_range current_action) in
  modify (set_self (fun o =>
    with_global_frame_end (_global_frame_end o + count) o)) ;;;
  modify (set_self (fun o =>
    with_animation_descs
      (_animation_descs o
         ++ [mkDesc (name current_action) (_global_frame_end o)]) o)).

(** Renders exactly ONE frame. *)
Definition process_step : M unit :=
  w <- get ;;
  (* If we have finished the current action's frames *)
  if (List.length (_frame_queue (self w)) <=? _frame_queue_index (self w))%nat then
    (* Move to next action *)
    modify (set_self (fun o => with_action_index (_action_index o + 1) o)) ;;;
    w1 <- get ;;
    when (_action_index (self w1) <? List.length (_actions (self w1)))%nat
      setup_next_action
  else
    (* Get current frame number *)
    match nth_error (_frame_queue (self w)) (_frame_queue_index (self w)) with
    | None => raise IndexError
    | Some frame_num =>
        (* Update Scene and UI *)
        modify (set_frame_current frame_num) ;;;
        modify (set_progress (with_tileIndex frame_num)) ;;;
        (* THE RENDER CALL: the tile of the scene's current frame *)
        modify (fun w1 => emit (RenderTile (frame_current w1)) w1) ;;;
        (* Increment for next loop *)
        modify (set_self (fun o =>
          with_frame_queue_index (_frame_queue_index o + 1) o))
    end.

(** Called when all renders are done. Runs assembler and saves JSON. *)
Definition finish : M unit :=
  w <- get ;;
  event_timer_remove (_timer (self w)) ;;;
  match target (props w) with
  | None => raise AttributeError
  | Some objectToRender =>
      (* Assembler Logic *)
      modify (emit (Print "Assembler path: " (binPath (props w))
                      (ASSEMBLER_FILENAME w))) ;;;
      modify (emit (RunAssembler (binPath (props w)) (ASSEMBLER_FILENAME w)
                      (outputPath (props w))
                      (String.append (obj_name objectToRender) ".png"))) ;;;
      (* JSON Logic *)
      w1 <- get ;;
      let json_info :=
        mkJson (obj_name objectToRender) (fst (tileSize (props w)))
          (snd (tileSize (props w))) (fps (props w))
          (_animation_descs (self w1)) in
      modify (emit (WriteBss (outputPath (props w))
                      (String.append (obj_name objectToRender) ".bss") json_info)) ;;;
      (* Cleanup *)
      modify (set_progress (with_rendering false)) ;;;
      modify (set_progress (with_success true)) ;;;
      w2 <- get ;;
      when (temp_exists w2)
        (modify (emit (RmTree (outputPath (props w)) "temp")) ;;;
         modify (set_temp_exists false))
  end.

Definition cancel : M OpResult :=
  w <- get ;;
  event_timer_remove (_timer (self w)) ;;;
  modify (set_progress (with_rendering false)) ;;;
  modify (emit (Report "INFO" "Render Cancelled")) ;;;
  ret CANCELLED.

Definition invoke : M OpResult :=
  (* 1. Initialization *)
  modify (set_progress (with_rendering true)) ;;;
  modify (set_progress (with_success false)) ;;;
  w <- get ;;
  modify (set_progress (with_actionTotal (List.length (data_actions w)))) ;;;
  modify (set_self (with_actions (data_actions w))) ;;;
  modify (set_self (with_action_index 0)) ;;;
  modify (set_self (with_animation_descs [])) ;;;
  modify (set_self (with_global_frame_end 0)) ;;;
  (* 2. Setup the first action *)
  w1 <- get ;;
  match _actions (self w1) with
  | [] =>
      modify (emit (Report "WARNING" "No actions found")) ;;;
      ret CANCELLED
  | _ :: _ =>
      setup_next_action ;;;
      (* 3. Start the Timer *)
      t <- event_timer_add ;;
      modify (set_self (with_timer (Some t))) ;;;
      modal_handler_add ;;;
      ret RUNNING_MODAL
  end.

Definition modal (event_type : EventType) : M OpResult :=
  match event_type with
  | ESC => cancel
  | TIMER =>
      (* Process one step *)
      process_step ;;;
      (* Update UI *)
      w <- get ;;
      when (area w) (modify (emit TagRedraw)) ;;;
      (* Check if we are completely done *)
      w1 <- get ;;
      if (List.length (_actions (self w1)) <=? _action_index (self w1))%nat then
        finish ;;;
        ret FINISHED
      else ret PASS_THROUGH
  | OTHER => ret PASS_THROUGH
  end.

(** ** The window manager's side of the modal protocol

    Blender delivers an event to [modal] only while the operator is a
    registered modal handler, and drops the handler as soon as [modal] returns
    FINISHED or CANCELLED. *)

Definition modal_handler_remove : M unit :=
  modify (set_wm (fun m => mkWm (timers m) (next_timer m) false)).

Definition deliver (event_type : EventType) : M (option OpResult) :=
  w <- get ;;
  if modal_handler (wm w) then
    r <- modal event_type ;;
    match r with
    | FINISHED | CANCELLED => modal_handler_remove ;;; ret (Some r)
    | _ => ret (Some r)
    end
  else ret None.

(** The events of a run, delivered in order; the results of the calls that
    reached the operator are collected. *)
Fixpoint deliver_all (events : list EventType) : M (list OpResult) :=
  match events with
  | [] => ret []
  | e :: events' =>
      r <- deliver e ;;
      rs <- deliver_all events' ;;
      ret (match r with Some x => x :: rs | None => rs end)
  end.

(** The frames passed to the render call, in order. *)
Definition rendered (l : list Effect) : list Z :=
  flat_map (fun e => match e with RenderTile z => [z] | _ => [] end) l.

(** The payloads [finish] has written, one per run of [finish]. *)
Definition handoffs (l : list Effect) : list JsonInfo :=
  flat_map (fun e => match e with WriteBss _ _ i => [i] | _ => [] end) l.

(** [n] TIMER events handed to [modal] one after the other; each tick is
    recorded with its result and the number of render calls it made. *)
Fixpoint ticks (n : nat) : M (list (OpResult * nat)) :=
  match n with
  | O => ret []
  | S n' =>
      w <- get ;;
      r <- modal TIMER ;;
      w' <- get ;;
      rs <- ticks n' ;;
      ret ((r, List.length (rendered (log w'))
               - List.length (rendered (log w)))%nat :: rs)
  end.

(** ** Quantities derived from the action list *)

(** The interval-derived count of an action: the first component of
    [frame_count]. *)
Definition interval_count (a : Action) : Z :=
  fst (fst (frame_count (frame_range a))).

(** The frame queue [setup_next_action] builds for an action, read off a world
    in which that action has just become current. *)
Definition queue_of (onlyMarked : bool) (a : Action) : list Z :=
  if onlyMarked && negb (Nat.eqb (List.length (pose_markers a)) 0)
  then map frame (pose_markers a)
  else py_range (Qfloor (fst (frame_range a)))
                (Qceiling (snd (frame_range a)) + 1).

Definition sum_Z (l : list Z) : Z := fold_right Z.add 0 l.
Definition sum_nat (l : list nat) : nat := fold_right Nat.add 0%nat l.

(** Sum of the interval-derived counts of the first [k] actions. *)
Definition cumulative (acts : list Action) (k : nat) : Z :=
  sum_Z (map interval_count (firstn k acts)).

(** The descriptors of a list of actions, starting from a running total. *)
Fixpoint descs_from (base : Z) (acts : list Action) : list AnimationDesc :=
  match acts with
  | [] => []
  | a :: rest =>
      mkDesc (name a) (base + interval_count a)
        :: descs_from (base + interval_count a) rest
  end.

(** The ticks one action takes: a render tick per queued frame, then the
    transition tick, which is the last tick of the job for the last action. *)
Fixpoint expected_ticks (onlyMarked : bool) (acts : list Action)
    : list (OpResult * nat) :=
  match acts with
  | [] => []
  | a :: rest =>
      repeat (PASS_THROUGH, 1%nat) (List.length (queue_of onlyMarked a))
        ++ [(match rest with [] => FINISHED | _ => PASS_THROUGH end, 0%nat)]
        ++ expected_ticks onlyMarked rest
  end.

(** ** Worlds after a step *)

(** The world [setup_next_action] leaves when action [a] becomes current on
    target [o]. *)
Definition after_setup (a : Action) (o : Object3D) (w : World) : World :=
  let q := queue_of (onlyRenderMarkedFrames (props w)) a in
  let total := _global_frame_end (self w) + interval_count a in
  mkWorld
    (mkOperator (_timer (self w)) (_actions (self w)) (_action_index (self w))
       q 0%nat
       (_animation_descs (self w) ++ [mkDesc (name a) total])
       total)
    (with_target (Some (mkObject (obj_name o) (Some (mkAnimData (Some a)))))
       (props w))
    (mkProgress (rendering (progressProps w)) (success (progressProps w))
       (actionTotal (progressProps w)) (name a) (_action_index (self w))
       (List.length q) (tileIndex (progressProps w)))
    (data_actions w) (frame_current w) (wm w) (area w) (temp_exists w)
    (platform_sys w) (log w).

(** The target object is set and carries animation data. *)
Definition target_ready (w : World) : Prop :=
  exists o ad, target (props w) = Some o /\ animation_data o = Some ad.

(** The world a render step leaves: frame [f] was set, shown and rendered. *)
Definition after_render (f : Z) (w : World) : World :=
  mkWorld
    (with_frame_queue_index (_frame_queue_index (self w) + 1) (self w))
    (props w) (with_tileIndex f (progressProps w)) (data_actions w)
    f (wm w) (area w) (temp_exists w) (platform_sys w)
    (log w ++ [RenderTile f]).

(** What [finish] adds to the effect log. *)
Definition finish_log (o : Object3D) (w : World) : list Effect :=
  let info :=
    mkJson (obj_name o) (fst (tileSize (props w))) (snd (tileSize (props w)))
      (fps (props w)) (_animation_descs (self w)) in
  [Print "Assembler path: " (binPath (props w)) (ASSEMBLER_FILENAME w);
   RunAssembler (binPath (props w)) (ASSEMBLER_FILENAME w)
     (outputPath (props w)) (String.append (obj_name o) ".png");
   WriteBss (outputPath (props w)) (String.append (obj_name o) ".bss") info]
  ++ (if temp_exists w then [RmTree (outputPath (props w)) "temp"] else []).

(** The world [finish] leaves on target [o]. *)
Definition after_finish (o : Object3D) (w : World) : World :=
  mkWorld (self w) (props w)
    (with_success true (with_rendering false (progressProps w)))
    (data_actions w) (frame_current w)
    (mkWm (filter (fun h => match _timer (self w) with
                            | Some h' => negb (Nat.eqb h h')
                            | None => true
                            end) (timers (wm w)))
          (next_timer (wm w)) (modal_handler (wm w)))
    (area w) false (platform_sys w)
    (log w ++ finish_log o w).

(** The redraw request of a TIMER event. *)
Definition redraw (w : World) : World :=
  if area w then emit TagRedraw w else w.

(** ** The run invariant *)

Section Run.

(** The actions of the job, the policy flag, and what the effect log held
    before the job started. *)
Variable acts : list Action.
Variable onlyMarked : bool.
Variable r0 : list Z.
Variable h0 : list JsonInfo.

(** Action [i] is current and [p] of its frames have been rendered. *)
Record Sched (i p : nat) (w : World) : Prop := mkSched {
  sch_actions : _actions (self w) = acts;
  sch_index : _action_index (self w) = i;
  sch_current : exists a, nth_error acts i = Some a
                  /\ _frame_queue (self w) = queue_of onlyMarked a;
  sch_pos : _frame_queue_index (self w) = p;
  sch_bound : (p <= List.length (_frame_queue (self w)))%nat;
  sch_descs : _animation_descs (self w) = descs_from 0 (firstn (S i) acts);
  sch_total : _global_frame_end (self w) = cumulative acts (S i);
  sch_rendered : rendered (log w) =
                 r0 ++ flat_map (queue_of onlyMarked) (firstn i acts)
                    ++ firstn p (_frame_queue (self w));
  sch_handoffs : handoffs (log w) = h0;
  sch_flag : onlyRenderMarkedFrames (props w) = onlyMarked;
  sch_target : target_ready w;
  sch_success : success (progressProps w) = false }.

(** The job is running: the operator is a modal handler. *)
Definition Running (i p : nat) (w : World) : Prop :=
  Sched i p w /\ modal_handler (wm w) = true
  /\ rendering (progressProps w) = true.

(** The job was cancelled while action [i] was current. *)
Definition Stopped (i p : nat) (w : World) : Prop :=
  Sched i p w /\ modal_handler (wm w) = false
  /\ rendering (progressProps w) = false.

(** The job has finished: every action was processed and [finish] ran. *)
Record Done (w : World) : Prop := mkDone {
  done_actions : _actions (self w) = acts;
  done_index : _action_index (self w) = List.length acts;
  done_descs : _animation_descs (self w) = descs_from 0 acts;
  done_total : _global_frame_end (self w)
               = sum_Z (map interval_count acts);
  done_rendered : rendered (log w)
                  = r0 ++ flat_map (queue_of onlyMarked) acts;
  done_handoffs : exists info,
      handoffs (log w) = h0 ++ [info]
      /\ animations info = descs_from 0 acts;
  done_success : success (progressProps w) = true;
  done_rendering : rendering (progressProps w) = false }.

(** The worlds a run goes through after [invoke] started the job. *)
Definition Reach (w : World) : Prop :=
  (exists i p, Running i p w)
  \/ (exists i p, Stopped i p w)
  \/ (Done w /\ modal_handler (wm w) = false).

End Run.

(** The render ticks a job takes: the sum of its frame-queue lengths. *)
Definition queue_lengths (onlyMarked : bool) (acts : list Action) : nat :=
  sum_nat (map (fun a => List.length (queue_of onlyMarked a)) acts).

Definition is_render_tick (t : OpResult * nat) : bool := Nat.eqb (snd t) 1.
Definition is_transition_tick (t : OpResult * nat) : bool :=
  Nat.eqb (snd t) 0.

(** The results of [modal] that end the job by finishing it. *)
Definition is_finished (r : OpResult) : bool :=
  match r with FINISHED => true | _ => false end.

(** ** Concrete scenes *)

Definition cube : Object3D := mkObject "Cube" (Some (mkAnimData None)).

Definition scene_props (onlyMarked : bool) : SpriteSheetPropertyGroup :=
  mkProps (Some cube) onlyMarked "//bin" "//sprites" (64, 64) 24.

Definition idle_progress : ProgressPropertyGroup :=
  mkProgress false false 0 "" 0 0 0.

(** A scene before the operator is invoked: a fresh operator instance, no
    timers, an empty effect log. *)
Definition scene (acts : list Action) (onlyMarked : bool) : World :=
  mkWorld RenderSpriteSheet (scene_props onlyMarked) idle_progress acts 0
    (mkWm [] 0 false) true false "Linux" [].

(** The same scene with the operator about to set up its first action. *)
Definition scene_at_setup (acts : list Action) (onlyMarked : bool) : World :=
  set_self (with_actions acts) (scene acts onlyMarked).

Definition walk : Action := mkAction "Walk" (22 # 10, 56 # 10) [].

Definition wave : Action :=
  mkAction "Wave" (0 # 1, 20 # 1)
    [mkMarker "up" 7; mkMarker "start" 3; mkMarker "down" 12].

Definition action_A : Action := mkAction "A" (0 # 1, 10 # 1) [].
Definition action_B : Action := mkAction "B" (0 # 1, 4 # 1) [].

(** The scene left by an earlier successful run, its actions deleted since. *)
Definition scene_after_success : World :=
  mkWorld RenderSpriteSheet (scene_props false)
    (mkProgress false true 2 "B" 1 5 4) [] 4 (mkWm [] 1 false) true false
    "Linux" [].

(** ** Further worlds and invariants *)

(** The world [invoke] leaves when it starts a job whose first action is
    [a]: the initialisation, the setup of [a], the timer and the handler. *)
Definition after_invoke (a : Action) (o : Object3D) (w0 : World) : World :=
  let init :=
    mkWorld
      (mkOperator (_timer (self w0)) (data_actions w0) 0%nat
         (_frame_queue (self w0)) (_frame_queue_index (self w0)) [] 0)
      (props w0)
      (mkProgress true false (List.length (data_actions w0))
         (actionName (progressProps w0)) (actionIndex (progressProps w0))
         (tileTotal (progressProps w0)) (tileIndex (progressProps w0)))
      (data_actions w0) (frame_current w0) (wm w0) (area w0)
      (temp_exists w0) (platform_sys w0) (log w0) in
  set_wm (fun m => mkWm (timers m ++ [next_timer m]) (S (next_timer m)) true)
    (set_self (with_timer (Some (next_timer (wm w0))))
       (after_setup a o init)).

(** The world [cancel] leaves. *)
Definition after_cancel (w : World) : World :=
  emit (Report "INFO" "Render Cancelled")
    (set_progress (with_rendering false)
       (set_wm (fun m =>
          mkWm (filter (fun h => match _timer (self w) with
                                 | Some h' => negb (Nat.eqb h h')
                                 | None => true
                                 end) (timers m))
               (next_timer m) (modal_handler m)) w)).

(** What the progress display, the scene and the target show of the
    scheduler's state. *)
Record Display (w : World) : Prop := mkDisplay {
  disp_pos :
    (_frame_queue_index (self w) <= List.length (_frame_queue (self w)))%nat;
  disp_total :
    actionTotal (progressProps w) = List.length (_actions (self w));
  disp_current :
    forall a,
      nth_error (_actions (self w)) (_action_index (self w)) = Some a ->
      actionIndex (progressProps w) = _action_index (self w)
      /\ actionName (progressProps w) = name a
      /\ tileTotal (progressProps w) = List.length (_frame_queue (self w))
      /\ exists o, target (props w) = Some o
                   /\ animation_data o = Some (mkAnimData (Some a));
  disp_frame :
    forall k,
      _frame_queue_index (self w) = S k ->
      nth_error (_frame_queue (self w)) k = Some (tileIndex (progressProps w))
      /\ frame_current w = tileIndex (progressProps w) }.

(** The operator holds a timer, which is live exactly while the operator is a
    modal handler. *)
Definition TimerHeld (w : World) : Prop :=
  exists t, _timer (self w) = Some t
            /\ (In t (timers (wm w)) <-> modal_handler (wm w) = true).

(** An interval with start <= end. *)
Definition well_formed (a : Action) : Prop :=
  (fst (frame_range a) <= snd (frame_range a))%Q.

(** The .bss files written, with directory and file name, and the assembler
    runs, with the binary and its two arguments, in order. *)
Definition written (l : list Effect) : list (string * string * JsonInfo) :=
  flat_map (fun e => match e with
                     | WriteBss d f i => [(d, f, i)]
                     | _ => []
                     end) l.

Definition assembled (l : list Effect)
    : list (string * string * string * string) :=
  flat_map (fun e => match e with
                     | RunAssembler b a r o => [(b, a, r, o)]
                     | _ => []
                     end) l.

(** A payload written for the target [name0] with the settings of [w0]. *)
Definition payload_of (name0 : string) (w0 : World)
    (x : string * string * JsonInfo) : Prop :=
  fst (fst x) = outputPath (props w0)
  /\ snd (fst x) = String.append name0 ".bss"
  /\ info_name (snd x) = name0
  /\ tileWidth (snd x) = fst (tileSize (props w0))
  /\ tileHeight (snd x) = snd (tileSize (props w0))
  /\ frameRate (snd x) = fps (props w0).

(** The settings of [w0] are still those of [w], the target is still called
    [name0], and what was assembled and written since [w0] was assembled and
    written for them. *)
Record Settings (name0 : string) (w0 w : World) : Prop := mkSettings {
  st_target : exists o, target (props w) = Some o /\ obj_name o = name0;
  st_bin : binPath (props w) = binPath (props w0);
  st_out : outputPath (props w) = outputPath (props w0);
  st_tile : tileSize (props w) = tileSize (props w0);
  st_fps : fps (props w) = fps (props w0);
  st_platform : platform_sys w = platform_sys w0;
  st_effects :
    exists new_written new_assembled,
      written (log w) = written (log w0) ++ new_written
      /\ assembled (log w) = assembled (log w0) ++ new_assembled
      /\ Forall (payload_of name0 w0) new_written
      /\ Forall (fun x => x = (binPath (props w0), ASSEMBLER_FILENAME w0,
                               outputPath (props w0),
                               String.append name0 ".png")) new_assembled
      /\ List.length new_assembled = List.length new_written }.

(** * Proofs *)

(** ** Basic facts *)

Arguments interval_count : simpl never.
Arguments queue_of : simpl never.
Arguments cumulative : simpl never.
Arguments py_range : simpl never.

Lemma py_range_length lo hi :
  List.length (py_range lo hi) = Z.to_nat (hi - lo).
Proof. unfold py_range. now rewrite length_map, length_seq. Qed.

Lemma py_range_nth lo hi k :
  (k < Z.to_nat (hi - lo))%nat ->
  nth_error (py_range lo hi) k = Some (lo + Z.of_nat k).
Proof.
  intros Hk. unfold py_range.
  rewrite nth_error_map, nth_error_seq.
  apply Nat.ltb_lt in Hk. now rewrite Hk.
Qed.

Lemma py_range_In lo hi z : In z (py_range lo hi) <-> lo <= z < hi.
Proof.
  unfold py_range. rewrite in_map_iff. split.
  - intros [k [<- Hk]]. apply in_seq in Hk. lia.
  - intros Hz. exists (Z.to_nat (z - lo)). split; [lia|].
    apply in_seq. lia.
Qed.

Lemma floor_le_ceiling (x y : Q) :
  (x <= y)%Q -> Qfloor x <= Qceiling y.
Proof.
  intros Hxy.
  apply Z.le_trans with (Qfloor y).
  - now apply Qfloor_resp_le.
  - rewrite Zle_Qle. apply Qle_floor_ceiling.
Qed.

(** Runs the monad by value, and reads fields through the updates.  The
    updates themselves stay folded unless a field is read through them, so
    that a chain of updates of one world stays linear in size. *)
Ltac step_monad :=
  cbv beta iota zeta delta [ret bind get modify raise when].

Ltac step_fields :=
  cbn [set_self set_props set_progress set_frame_current set_wm
       set_temp_exists emit with_timer with_actions with_action_index
       with_frame_queue with_frame_queue_index with_animation_descs
       with_global_frame_end with_rendering with_success with_actionTotal
       with_actionName with_actionIndex with_tileTotal with_tileIndex
       with_target
       self props progressProps data_actions frame_current wm area
       temp_exists platform_sys log
       _timer _actions _action_index _frame_queue _frame_queue_index
       _animation_descs _global_frame_end
       rendering success actionTotal actionName actionIndex tileTotal
       tileIndex target onlyRenderMarkedFrames binPath outputPath tileSize
       fps timers next_timer modal_handler].

Ltac run_code := step_monad; step_fields.

Tactic Notation "step_monad" "in" hyp(H) :=
  cbv beta iota zeta delta [ret bind get modify raise when] in H.

Tactic Notation "step_fields" "in" hyp(H) :=
  cbn [set_self set_props set_progress set_frame_current set_wm
       set_temp_exists emit with_timer with_actions with_action_index
       with_frame_queue with_frame_queue_index with_animation_descs
       with_global_frame_end with_rendering with_success with_actionTotal
       with_actionName with_actionIndex with_tileTotal with_tileIndex
       with_target
       self props progressProps data_actions frame_current wm area
       temp_exists platform_sys log
       _timer _actions _action_index _frame_queue _frame_queue_index
       _animation_descs _global_frame_end
       rendering success actionTotal actionName actionIndex tileTotal
       tileIndex target onlyRenderMarkedFrames binPath outputPath tileSize
       fps timers next_timer modal_handler] in H.

(** For a world given by its constructor: everything is computed. *)
Ltac run_concrete :=
  cbv beta iota zeta delta
    [ret bind get modify raise when
     set_self set_props set_progress set_frame_current set_wm
     set_temp_exists emit with_timer with_actions with_action_index
     with_frame_queue with_frame_queue_index with_animation_descs
     with_global_frame_end with_rendering with_success with_actionTotal
     with_actionName with_actionIndex with_tileTotal with_tileIndex
     with_target
     self props progressProps data_actions frame_current wm area
     temp_exists platform_sys log
     _timer _actions _action_index _frame_queue _frame_queue_index
     _animation_descs _global_frame_end
     rendering success actionTotal actionName actionIndex tileTotal
     tileIndex target onlyRenderMarkedFrames binPath outputPath tileSize
     fps timers next_timer modal_handler].

(** The marked-frames loop appends the marker frames, in order, to whatever
    the queue holds. *)
Lemma marked_loop (l : list Marker) (w : World) :
  for_each l (fun marker =>
      modify (set_self (fun o =>
        with_frame_queue (_frame_queue o ++ [frame marker]) o))) w
  = Ok tt (set_self (fun o =>
        with_frame_queue (_frame_queue o ++ map frame l) o) w).
Proof.
  revert w. induction l as [|m l IH]; intros w.
  - destruct w as [[t a i q p d g] ? ? ? ? ? ? ? ? ?].
    cbn [for_each map]. unfold ret, set_self, with_frame_queue.
    cbn [self _timer _actions _action_index _frame_queue _frame_queue_index
         _animation_descs _global_frame_end props progressProps data_actions
         frame_current wm area temp_exists platform_sys log].
    now rewrite app_nil_r.
  - cbn [for_each]. unfold bind at 1. unfold modify at 1.
    rewrite IH. destruct w as [[t a i q p d g] ? ? ? ? ? ? ? ? ?].
    unfold set_self, with_frame_queue.
    cbn [self _timer _actions _action_index _frame_queue _frame_queue_index
         _animation_descs _global_frame_end props progressProps data_actions
         frame_current wm area temp_exists platform_sys log map].
    now rewrite <- app_assoc.
Qed.

Lemma setup_next_action_ok (w : World) (a : Action) (o : Object3D) ad :
  nth_error (_actions (self w)) (_action_index (self w)) = Some a ->
  target (props w) = Some o ->
  animation_data o = Some ad ->
  setup_next_action w = Ok tt (after_setup a o w).
Proof.
  intros Ha Ho Had.
  unfold setup_next_action, current_action_of.
  unfold bind at 1. unfold bind at 1. unfold get at 1. rewrite Ha.
  unfold ret at 1. unfold bind at 1. unfold get at 1.
  unfold bind at 1. unfold modify at 1.
  unfold bind at 1. unfold modify at 1.
  unfold bind at 1. unfold assign_action. unfold bind at 1. unfold get at 1.
  cbn [props set_progress]. rewrite Ho, Had.
  unfold modify at 1.
  unfold bind at 1. unfold modify at 1.
  unfold bind at 1. unfold modify at 1.
  unfold bind at 1.
  unfold after_setup, queue_of, interval_count, frame_count.
  destruct (onlyRenderMarkedFrames (props w)) eqn:Hflag;
    destruct (pose_markers a) as [|m ms] eqn:Hm;
    cbn [andb negb Nat.eqb List.length Nat.ltb Nat.leb fst snd].
  2: rewrite marked_loop.
  all: step_monad; reflexivity.
Qed.

Lemma process_step_render (w : World) (f : Z) :
  nth_error (_frame_queue (self w)) (_frame_queue_index (self w)) = Some f ->
  process_step w = Ok tt (after_render f w).
Proof.
  intros Hf.
  assert (Hlt : (_frame_queue_index (self w)
                 < List.length (_frame_queue (self w)))%nat).
  { apply nth_error_Some. congruence. }
  unfold process_step. unfold bind at 1. unfold get at 1.
  apply Nat.leb_gt in Hlt. rewrite Hlt, Hf.
  run_code. reflexivity.
Qed.

Lemma process_step_exhausted (w : World) :
  (List.length (_frame_queue (self w)) <= _frame_queue_index (self w))%nat ->
  process_step w =
    let w1 := set_self (with_action_index (_action_index (self w) + 1)) w in
    if (_action_index (self w) + 1 <? List.length (_actions (self w)))%nat
    then setup_next_action w1
    else Ok tt w1.
Proof.
  intros Hle. unfold process_step. unfold bind at 1. unfold get at 1.
  apply Nat.leb_le in Hle. rewrite Hle.
  unfold bind at 1. unfold modify at 1.
  unfold bind at 1. unfold get at 1.
  step_fields.
  destruct (_ <? _)%nat; reflexivity.
Qed.

Lemma finish_ok (w : World) (o : Object3D) :
  target (props w) = Some o ->
  finish w = Ok tt (after_finish o w).
Proof.
  intros Ho. unfold finish, event_timer_remove.
  unfold bind at 1. unfold get at 1.
  unfold bind at 1. unfold modify at 1.
  rewrite Ho. unfold after_finish, finish_log, ASSEMBLER_FILENAME.
  destruct w as [s pr pg da fc m ar te pl lg].
  destruct te; run_concrete; rewrite <- !app_assoc; reflexivity.
Qed.

Lemma finish_log_rendered o w : rendered (finish_log o w) = [].
Proof. unfold finish_log. now destruct (temp_exists w). Qed.

Lemma finish_log_handoffs o w :
  handoffs (finish_log o w) =
  [mkJson (obj_name o) (fst (tileSize (props w))) (snd (tileSize (props w)))
     (fps (props w)) (_animation_descs (self w))].
Proof. unfold finish_log. now destruct (temp_exists w). Qed.

(** One TIMER event, split into the step, the redraw and the final check. *)
Lemma modal_timer (w : World) :
  modal TIMER w =
    match process_step w with
    | Ok _ w1 =>
        if (List.length (_actions (self w1)) <=? _action_index (self w1))%nat
        then match finish (redraw w1) with
             | Ok _ w2 => Ok FINISHED w2
             | Raised e => Raised e
             end
        else Ok PASS_THROUGH (redraw w1)
    | Raised e => Raised e
    end.
Proof.
  unfold modal. unfold bind at 1.
  destruct (process_step w) as [[] w1|e]; [|reflexivity].
  unfold bind at 1. unfold get at 1. unfold bind at 1.
  unfold redraw.
  destruct w1 as [s pr pg da fc m ar te pl lg].
  destruct ar; run_code; cbn [area]; step_fields;
    destruct (_ <=? _)%nat; try reflexivity;
    match goal with |- context [finish ?x] => destruct (finish x) end;
    reflexivity.
Qed.

Lemma modal_esc (w : World) :
  modal ESC w =
    Ok CANCELLED
      (emit (Report "INFO" "Render Cancelled")
         (set_progress (with_rendering false)
            (set_wm (fun m =>
               mkWm (filter (fun h => match _timer (self w) with
                                      | Some h' => negb (Nat.eqb h h')
                                      | None => true
                                      end) (timers m))
                    (next_timer m) (modal_handler m)) w))).
Proof. reflexivity. Qed.

(** ** List facts used by the run invariant *)

Lemma firstn_snoc {A} (l : list A) (i : nat) (a : A) :
  nth_error l i = Some a -> firstn (S i) l = firstn i l ++ [a].
Proof.
  revert i. induction l as [|x l IH]; intros [|i] H; cbn in *; try discriminate.
  - now inversion H.
  - f_equal. now apply IH.
Qed.

Lemma sum_Z_app (l1 l2 : list Z) : sum_Z (l1 ++ l2) = sum_Z l1 + sum_Z l2.
Proof.
  unfold sum_Z. induction l1 as [|x l1 IH]; cbn; [reflexivity|].
  rewrite IH. lia.
Qed.

Lemma cumulative_S (acts : list Action) (i : nat) (a : Action) :
  nth_error acts i = Some a ->
  cumulative acts (S i) = cumulative acts i + interval_count a.
Proof.
  intros H. unfold cumulative. rewrite (firstn_snoc _ _ _ H).
  rewrite map_app, sum_Z_app. cbn. lia.
Qed.

Lemma cumulative_all (acts : list Action) (k : nat) :
  (List.length acts <= k)%nat ->
  cumulative acts k = sum_Z (map interval_count acts).
Proof. intros H. unfold cumulative. now rewrite firstn_all2. Qed.

Lemma descs_from_snoc (base : Z) (l : list Action) (a : Action) :
  descs_from base (l ++ [a]) =
  descs_from base l
    ++ [mkDesc (name a) (base + sum_Z (map interval_count l) + interval_count a)].
Proof.
  revert base. induction l as [|x l IH]; intros base;
    cbn [app descs_from map]; unfold sum_Z; cbn [fold_right].
  - now rewrite Z.add_0_r.
  - rewrite IH. unfold sum_Z. do 3 f_equal. f_equal. lia.
Qed.

Lemma descs_from_length (base : Z) (l : list Action) :
  List.length (descs_from base l) = List.length l.
Proof.
  revert base. induction l as [|x l IH]; intros base; cbn; [reflexivity|].
  now rewrite IH.
Qed.

Lemma rendered_app (l1 l2 : list Effect) :
  rendered (l1 ++ l2) = rendered l1 ++ rendered l2.
Proof. apply flat_map_app. Qed.

Lemma handoffs_app (l1 l2 : list Effect) :
  handoffs (l1 ++ l2) = handoffs l1 ++ handoffs l2.
Proof. apply flat_map_app. Qed.

Lemma redraw_self w : self (redraw w) = self w.
Proof. unfold redraw. now destruct (area w). Qed.

Lemma redraw_props w : props (redraw w) = props w.
Proof. unfold redraw. now destruct (area w). Qed.

Lemma redraw_progress w : progressProps (redraw w) = progressProps w.
Proof. unfold redraw. now destruct (area w). Qed.

Lemma redraw_wm w : wm (redraw w) = wm w.
Proof. unfold redraw. now destruct (area w). Qed.

Lemma redraw_rendered w : rendered (log (redraw w)) = rendered (log w).
Proof.
  unfold redraw. destruct (area w); [|reflexivity].
  cbn [emit log]. rewrite rendered_app. cbn. now rewrite app_nil_r.
Qed.

Lemma redraw_handoffs w : handoffs (log (redraw w)) = handoffs (log w).
Proof.
  unfold redraw. destruct (area w); [|reflexivity].
  cbn [emit log]. rewrite handoffs_app. cbn. now rewrite app_nil_r.
Qed.

(** ** Steps of a run *)

Lemma invoke_empty (w0 : World) :
  data_actions w0 = [] ->
  invoke w0 =
    Ok CANCELLED
      (emit (Report "WARNING" "No actions found")
         (set_self (fun o => mkOperator (_timer o) [] 0 (_frame_queue o)
                               (_frame_queue_index o) [] 0)
            (set_progress (fun p => mkProgress true false 0 (actionName p)
                                      (actionIndex p) (tileTotal p)
                                      (tileIndex p)) w0))).
Proof.
  intros H. unfold invoke. run_code. rewrite H. reflexivity.
Qed.

Lemma invoke_running (w0 : World) :
  data_actions w0 <> [] ->
  target_ready w0 ->
  exists w1,
    invoke w0 = Ok RUNNING_MODAL w1
    /\ Running (data_actions w0) (onlyRenderMarkedFrames (props w0))
         (rendered (log w0)) (handoffs (log w0)) 0 0 w1
    /\ log w1 = log w0.
Proof.
  intros Hne (o & ad & Ho & Had).
  destruct (data_actions w0) as [|a rest] eqn:Hacts; [congruence|].
  eexists.
  unfold invoke. step_monad. step_fields. rewrite Hacts.
  rewrite (setup_next_action_ok _ a o ad);
    [ | reflexivity | exact Ho | exact Had ].
  unfold event_timer_add, modal_handler_add. step_monad.
  split; [reflexivity|]. split; [|reflexivity].
  split; [|split; reflexivity].
  constructor; unfold after_setup; step_fields.
  - reflexivity.
  - reflexivity.
  - exists a. split; reflexivity.
  - reflexivity.
  - lia.
  - cbn [firstn descs_from]. reflexivity.
  - unfold cumulative, sum_Z. cbn [firstn map fold_right]. lia.
  - cbn [firstn flat_map app]. now rewrite app_nil_r.
  - reflexivity.
  - reflexivity.
  - red. step_fields. do 2 eexists. split; reflexivity.
  - reflexivity.
Qed.

Section Steps.

Variable acts : list Action.
Variable onlyMarked : bool.
Variable r0 : list Z.
Variable h0 : list JsonInfo.

Let running := Running acts onlyMarked r0 h0.
Let sched := Sched acts onlyMarked r0 h0.
Let reach := Reach acts onlyMarked r0 h0.

(** A TIMER event while frames are left in the queue: one frame is
    rendered. *)
Lemma tick_render (i p : nat) (w : World) (f : Z) :
  running i p w ->
  nth_error (_frame_queue (self w)) p = Some f ->
  exists w',
    modal TIMER w = Ok PASS_THROUGH w'
    /\ running i (S p) w'
    /\ rendered (log w') = rendered (log w) ++ [f].
Proof.
  intros [Hs [Hh Hr]] Hf. destruct Hs.
  assert (Hlt : (p < List.length (_frame_queue (self w)))%nat).
  { apply nth_error_Some. congruence. }
  rewrite modal_timer, (process_step_render w f) by (now rewrite sch_pos0).
  unfold after_render at 1 2. step_fields.
  assert (Hi : (i < List.length acts)%nat).
  { destruct sch_current0 as (a & Ha & _). apply nth_error_Some. congruence. }
  rewrite sch_actions0, sch_index0.
  apply Nat.leb_gt in Hi. rewrite Hi.
  eexists. split; [reflexivity|].
  assert (Hlog : rendered (log (redraw (after_render f w)))
                 = rendered (log w) ++ [f]).
  { rewrite redraw_rendered. unfold after_render. step_fields.
    now rewrite rendered_app. }
  split; [|exact Hlog].
  split; [|split].
  - constructor; rewrite ?redraw_self, ?redraw_props, ?redraw_progress,
      ?redraw_handoffs; unfold after_render; step_fields; try assumption.
    + rewrite sch_pos0. lia.
    + change (rendered (log (redraw (after_render f w)))
              = r0 ++ flat_map (queue_of onlyMarked) (firstn i acts)
                   ++ firstn (S p) (_frame_queue (self w))).
      rewrite Hlog, sch_rendered0.
      rewrite (firstn_snoc _ _ _ Hf). now rewrite <- !app_assoc.
    + rewrite handoffs_app, sch_handoffs0. apply app_nil_r.
    + destruct sch_target0 as (o & ad & Ho & Had).
      exists o, ad. now rewrite redraw_props.
  - now rewrite redraw_wm.
  - now rewrite redraw_progress.
Qed.

(** A TIMER event on an exhausted queue with actions left: the next action
    becomes current and nothing is rendered. *)
Lemma tick_next (i p : nat) (w : World) :
  running i p w ->
  (List.length (_frame_queue (self w)) <= p)%nat ->
  (S i < List.length acts)%nat ->
  exists w',
    modal TIMER w = Ok PASS_THROUGH w'
    /\ running (S i) 0 w'
    /\ rendered (log w') = rendered (log w).
Proof.
  intros [Hs [Hh Hr]] Hle Hi. destruct Hs.
  destruct (nth_error acts (S i)) as [a'|] eqn:Ha';
    [|apply nth_error_None in Ha'; lia].
  destruct sch_target0 as (o & ad & Ho & Had).
  destruct sch_current0 as (a & Ha & Hq).
  rewrite modal_timer, process_step_exhausted by (now rewrite sch_pos0).
  cbv zeta. rewrite sch_actions0, sch_index0, Nat.add_1_r.
  pose proof Hi as Hi'. apply Nat.ltb_lt in Hi'. rewrite Hi'.
  rewrite (setup_next_action_ok _ a' o ad);
    [ | step_fields; rewrite sch_actions0; exact Ha' | exact Ho | exact Had ].
  unfold after_setup at 1 2. step_fields.
  rewrite sch_actions0.
  apply Nat.leb_gt in Hi. rewrite Hi.
  eexists. split; [reflexivity|].
  rewrite redraw_rendered. unfold after_setup at 2. step_fields.
  split; [|reflexivity].
  split; [|split].
  - constructor; rewrite ?redraw_self, ?redraw_props, ?redraw_progress,
      ?redraw_handoffs, ?redraw_rendered; unfold after_setup; step_fields;
      try assumption; try reflexivity.
    + exists a'. now rewrite sch_flag0.
    + lia.
    + rewrite (firstn_snoc _ _ _ Ha'), descs_from_snoc, sch_descs0.
      rewrite sch_total0. unfold cumulative. now rewrite Z.add_0_l.
    + rewrite sch_total0. symmetry. now apply cumulative_S.
    + rewrite sch_rendered0.
      rewrite (firstn_snoc _ _ _ Ha), flat_map_app. cbn [flat_map firstn].
      rewrite !app_nil_r, <- Hq, (firstn_all2 _ Hle). reflexivity.
    + red. rewrite redraw_props. step_fields.
      do 2 eexists. split; reflexivity.
  - now rewrite redraw_wm.
  - now rewrite redraw_progress.
Qed.

(** A TIMER event on the exhausted queue of the last action: the index
    reaches the action count, [finish] runs and FINISHED is returned. *)
Lemma tick_last (i p : nat) (w : World) :
  running i p w ->
  (List.length (_frame_queue (self w)) <= p)%nat ->
  (List.length acts <= S i)%nat ->
  exists w',
    modal TIMER w = Ok FINISHED w'
    /\ Done acts onlyMarked r0 h0 w'
    /\ rendered (log w') = rendered (log w)
    /\ props w' = props w.
Proof.
  intros [Hs [Hh Hr]] Hle Hi. destruct Hs.
  destruct sch_current0 as (a & Ha & Hq).
  assert (Hlen : List.length acts = S i).
  { assert (i < List.length acts)%nat by (apply nth_error_Some; congruence).
    lia. }
  destruct sch_target0 as (o & ad & Ho & Had).
  rewrite modal_timer, process_step_exhausted by (now rewrite sch_pos0).
  cbv zeta. rewrite sch_actions0, sch_index0, Nat.add_1_r.
  rewrite Hlen, Nat.ltb_irrefl.
  step_fields. rewrite sch_actions0, Hlen, Nat.leb_refl.
  rewrite (finish_ok _ o) by (now rewrite redraw_props).
  eexists. split; [reflexivity|].
  assert (Hfull : firstn (S i) acts = acts)
    by (apply firstn_all2; lia).
  assert (Hlog : rendered
                   (log (after_finish o
                      (redraw (set_self (with_action_index (S i)) w))))
                 = rendered (log w)).
  { unfold after_finish. step_fields.
    rewrite rendered_app, finish_log_rendered, app_nil_r, redraw_rendered.
    reflexivity. }
  split; [|split; [exact Hlog|]].
  - constructor; rewrite ?Hlog; unfold after_finish; step_fields;
      rewrite ?redraw_self; step_fields; try assumption; try reflexivity.
    + now rewrite <- Hlen.
    + now rewrite sch_descs0, Hfull.
    + rewrite sch_total0. apply cumulative_all. lia.
    + rewrite sch_rendered0.
      rewrite <- Hfull at 2. rewrite (firstn_snoc _ _ _ Ha), flat_map_app.
      cbn [flat_map]. rewrite app_nil_r, <- Hq, (firstn_all2 _ Hle).
      reflexivity.
    + eexists. split.
      * rewrite handoffs_app, finish_log_handoffs, redraw_handoffs.
        step_fields. rewrite sch_handoffs0. reflexivity.
      * cbn [animations]. rewrite redraw_self. step_fields.
        now rewrite sch_descs0, Hfull.
  - unfold after_finish. step_fields. now rewrite redraw_props.
Qed.

(** An ESC event while running: [cancel] stops the timer and clears the
    rendering flag; the scheduler fields and the success flag stay as they
    are and nothing is handed off. *)
Lemma esc_cancels (i p : nat) (w : World) :
  running i p w ->
  exists w',
    modal ESC w = Ok CANCELLED w'
    /\ sched i p w'
    /\ self w' = self w
    /\ rendering (progressProps w') = false
    /\ log w' = log w ++ [Report "INFO" "Render Cancelled"].
Proof.
  intros [S [Hh Hr]]. destruct S.
  rewrite modal_esc. eexists. split; [reflexivity|].
  split; [|repeat split].
  constructor; cbn; try assumption.
  - rewrite rendered_app. cbn. now rewrite app_nil_r.
  - rewrite handoffs_app. cbn. now rewrite app_nil_r.
Qed.

(** *** Events delivered by the window manager *)

Lemma deliver_unregistered (ev : EventType) (w : World) :
  modal_handler (wm w) = false -> deliver ev w = Ok None w.
Proof. intros H. unfold deliver. step_monad. now rewrite H. Qed.

Lemma deliver_registered (ev : EventType) (w : World) :
  modal_handler (wm w) = true ->
  deliver ev w =
    match modal ev w with
    | Ok r w' =>
        match r with
        | FINISHED | CANCELLED =>
            Ok (Some r)
               (set_wm (fun m => mkWm (timers m) (next_timer m) false) w')
        | _ => Ok (Some r) w'
        end
    | Raised e => Raised e
    end.
Proof.
  intros H. unfold deliver, modal_handler_remove. step_monad. rewrite H.
  destruct (modal ev w) as [[] w'|e]; reflexivity.
Qed.

Lemma sched_unregister (i p : nat) (w : World) :
  sched i p w ->
  sched i p (set_wm (fun m => mkWm (timers m) (next_timer m) false) w).
Proof.
  intros []. constructor; unfold target_ready in *; step_fields; assumption.
Qed.

Lemma done_unregister (w : World) :
  Done acts onlyMarked r0 h0 w ->
  Done acts onlyMarked r0 h0
    (set_wm (fun m => mkWm (timers m) (next_timer m) false) w).
Proof.
  intros []. constructor; unfold target_ready in *; step_fields; assumption.
Qed.

(** While the job runs, a TIMER event is one of the three ticks. *)
Lemma tick_cases (i p : nat) (w : World) :
  running i p w ->
  (exists f, nth_error (_frame_queue (self w)) p = Some f)
  \/ ((List.length (_frame_queue (self w)) <= p)%nat
      /\ (S i < List.length acts)%nat)
  \/ ((List.length (_frame_queue (self w)) <= p)%nat
      /\ (List.length acts <= S i)%nat).
Proof.
  intros _.
  destruct (nth_error (_frame_queue (self w)) p) as [f|] eqn:Hf.
  - left. now exists f.
  - apply nth_error_None in Hf. right.
    destruct (Nat.lt_ge_cases (S i) (List.length acts)); [left|right];
      now split.
Qed.

Lemma deliver_reach (ev : EventType) (w : World) :
  reach w ->
  exists r w', deliver ev w = Ok r w' /\ reach w'.
Proof.
  intros [(i & p & Hrun) | [(i & p & Hst) | [Hd Hh]]].
  - pose proof Hrun as [Hs [Hh Hr]].
    rewrite (deliver_registered _ _ Hh).
    destruct ev.
    + destruct (esc_cancels i p w Hrun) as (w' & -> & Hs' & _ & Hr' & _).
      do 2 eexists. split; [reflexivity|].
      right; left. exists i, p. split; [|split].
      * now apply sched_unregister.
      * reflexivity.
      * exact Hr'.
    + destruct (tick_cases i p w Hrun) as [[f Hf] | [[Hle Hi] | [Hle Hi]]].
      * destruct (tick_render i p w f Hrun Hf) as (w' & -> & Hrun' & _).
        do 2 eexists. split; [reflexivity|]. left. eauto.
      * destruct (tick_next i p w Hrun Hle Hi) as (w' & -> & Hrun' & _).
        do 2 eexists. split; [reflexivity|]. left. eauto.
      * destruct (tick_last i p w Hrun Hle Hi) as (w' & -> & Hd & _).
        do 2 eexists. split; [reflexivity|].
        right; right. split; [now apply done_unregister|reflexivity].
    + cbn [modal]. unfold ret.
      do 2 eexists. split; [reflexivity|]. left. eauto.
  - destruct Hst as [Hs [Hh Hr]].
    rewrite (deliver_unregistered _ _ Hh).
    do 2 eexists. split; [reflexivity|]. right; left.
    exists i, p. split; [|split]; assumption.
  - rewrite (deliver_unregistered _ _ Hh).
    do 2 eexists. split; [reflexivity|]. right; right. now split.
Qed.

Lemma deliver_all_reach (events : list EventType) (w : World) :
  reach w ->
  exists rs w', deliver_all events w = Ok rs w' /\ reach w'.
Proof.
  revert w. induction events as [|ev events IH]; intros w Hw.
  - exists [], w. split; [reflexivity|assumption].
  - destruct (deliver_reach ev w Hw) as (r & w1 & Hd & Hw1).
    destruct (IH w1 Hw1) as (rs & w2 & Hall & Hw2).
    cbn [deliver_all]. step_monad. rewrite Hd, Hall.
    do 2 eexists. split; [reflexivity|assumption].
Qed.

(** *** TIMER events up to the end of the job *)

Lemma ticks_S (n : nat) (w : World) :
  ticks (S n) w =
    match modal TIMER w with
    | Ok r w1 =>
        match ticks n w1 with
        | Ok rs w2 =>
            Ok ((r, List.length (rendered (log w1))
                    - List.length (rendered (log w)))%nat :: rs) w2
        | Raised e => Raised e
        end
    | Raised e => Raised e
    end.
Proof.
  cbn [ticks]. step_monad.
  destruct (modal TIMER w) as [r w1|e]; reflexivity.
Qed.

Lemma ticks_app (n m : nat) (w w1 w2 : World) l1 l2 :
  ticks n w = Ok l1 w1 ->
  ticks m w1 = Ok l2 w2 ->
  ticks (n + m) w = Ok (l1 ++ l2) w2.
Proof.
  revert w l1. induction n as [|n IH]; intros w l1 H1 H2.
  - cbn in H1. unfold ret in H1. inversion H1; subst. exact H2.
  - rewrite ticks_S in H1. cbn [Nat.add]. rewrite ticks_S.
    destruct (modal TIMER w) as [r wa|e]; [|discriminate].
    destruct (ticks n wa) as [rs wb|e] eqn:Hn; [|discriminate].
    inversion H1; subst. rewrite (IH _ _ Hn H2). reflexivity.
Qed.

Lemma sched_queue (i p p' : nat) (w w' : World) :
  sched i p w -> sched i p' w' ->
  _frame_queue (self w') = _frame_queue (self w).
Proof.
  intros [] []. 
  destruct sch_current0 as (a & Ha & Hq).
  destruct sch_current1 as (a' & Ha' & Hq').
  congruence.
Qed.

(** The render ticks of the current action. *)
Lemma render_run (k i p : nat) (w : World) :
  running i p w ->
  (p + k)%nat = List.length (_frame_queue (self w)) ->
  exists w',
    ticks k w = Ok (repeat (PASS_THROUGH, 1%nat) k) w'
    /\ running i (p + k) w'.
Proof.
  revert p w. induction k as [|k IH]; intros p w Hrun Hk.
  - exists w. rewrite Nat.add_0_r. split; [reflexivity|assumption].
  - destruct (nth_error (_frame_queue (self w)) p) as [f|] eqn:Hf;
      [|apply nth_error_None in Hf; lia].
    destruct (tick_render i p w f Hrun Hf) as (w1 & Hstep & Hrun1 & Hlog).
    assert (Hq : _frame_queue (self w1) = _frame_queue (self w)).
    { destruct Hrun as [Hs _], Hrun1 as [Hs1 _].
      exact (sched_queue _ _ _ _ _ Hs Hs1). }
    destruct (IH (S p) w1 Hrun1) as (w2 & Hrest & Hrun2).
    { rewrite Hq. lia. }
    exists w2. rewrite ticks_S, Hstep, Hrest, Hlog, length_app.
    cbn [List.length repeat].
    replace (_ + 1 - _)%nat with 1%nat by lia.
    split; [reflexivity|]. now rewrite <- Nat.add_succ_comm.
Qed.

Lemma skipn_cons {A} (l : list A) (i : nat) (a : A) (rest : list A) :
  skipn i l = a :: rest ->
  nth_error l i = Some a /\ skipn (S i) l = rest
  /\ List.length l = (i + S (List.length rest))%nat.
Proof.
  revert i. induction l as [|x l IH]; intros [|i] H; cbn in *;
    try discriminate.
  - inversion H; subst. auto.
  - destruct (IH i H) as (H1 & H2 & H3). auto.
Qed.

(** From the moment action [i] becomes current to the end of the job. *)
Lemma run_from (rest : list Action) :
  forall (a : Action) (i : nat) (w : World),
    running i 0 w ->
    skipn i acts = a :: rest ->
    exists w',
      ticks (List.length (expected_ticks onlyMarked (a :: rest))) w
        = Ok (expected_ticks onlyMarked (a :: rest)) w'
      /\ Done acts onlyMarked r0 h0 w'.
Proof.
  induction rest as [|a' rest IH]; intros a i w Hrun Hskip;
    destruct (skipn_cons _ _ _ _ Hskip) as (Ha & Hnext & Hlen);
    assert (Hq : _frame_queue (self w) = queue_of onlyMarked a)
      by (destruct Hrun as [[] _];
          destruct sch_current0 as (b & Hb & Hq); congruence);
    destruct (render_run (List.length (queue_of onlyMarked a)) i 0 w Hrun)
      as (w1 & Hticks & Hrun1); try (now rewrite Hq);
    cbn [Nat.add] in Hrun1;
    assert (Hq1 : _frame_queue (self w1) = queue_of onlyMarked a)
      by (destruct Hrun1 as [[] _];
          destruct sch_current0 as (b & Hb & Hq1); congruence).
  - destruct (tick_last i _ w1 Hrun1) as (w2 & Hstep & Hdone & Hlog & _).
    { now rewrite Hq1. }
    { cbn [List.length] in Hlen. lia. }
    exists w2. split; [|exact Hdone].
    cbn [expected_ticks]. rewrite app_nil_r, length_app, repeat_length.
    apply ticks_app with (w1 := w1); [exact Hticks|].
    cbn [List.length]. rewrite ticks_S, Hstep. cbn [ticks]. unfold ret.
    rewrite Hlog, Nat.sub_diag. reflexivity.
  - destruct (tick_next i _ w1 Hrun1) as (w2 & Hstep & Hrun2 & Hlog).
    { now rewrite Hq1. }
    { cbn [List.length] in Hlen. lia. }
    destruct (IH a' (S i) w2 Hrun2 Hnext) as (w3 & Hrest & Hdone).
    exists w3. split; [|exact Hdone].
    change (expected_ticks onlyMarked (a :: a' :: rest))
      with (repeat (PASS_THROUGH, 1%nat)
              (List.length (queue_of onlyMarked a))
            ++ [(PASS_THROUGH, 0%nat)]
            ++ expected_ticks onlyMarked (a' :: rest)).
    rewrite length_app, repeat_length.
    apply ticks_app with (w1 := w1); [exact Hticks|].
    rewrite length_app. cbn [List.length Nat.add app].
    rewrite ticks_S, Hstep, Hrest, Hlog, Nat.sub_diag. reflexivity.
Qed.

(** *** What holds in every world of a run *)

Lemma reach_total (w : World) :
  reach w ->
  _global_frame_end (self w) = cumulative acts (S (_action_index (self w))).
Proof.
  intros [(i & p & [[] _]) | [(i & p & [[] _]) | [[] _]]].
  - now rewrite sch_index0.
  - now rewrite sch_index0.
  - rewrite done_index0, done_total0. symmetry. apply cumulative_all. lia.
Qed.

Lemma reach_descs (w : World) :
  reach w ->
  _animation_descs (self w)
  = descs_from 0 (firstn (S (_action_index (self w))) acts).
Proof.
  intros [(i & p & [[] _]) | [(i & p & [[] _]) | [[] _]]].
  - now rewrite sch_index0.
  - now rewrite sch_index0.
  - rewrite done_index0, done_descs0, firstn_all2 by lia. reflexivity.
Qed.

Lemma reach_actions (w : World) : reach w -> _actions (self w) = acts.
Proof.
  intros [(i & p & [[] _]) | [(i & p & [[] _]) | [[] _]]]; assumption.
Qed.

(** [finish] has run at most once, and exactly when the action index has
    reached the action count; the operator is then no modal handler any
    more. *)
Lemma reach_handoffs (w : World) :
  reach w ->
  if (List.length acts <=? _action_index (self w))%nat
  then (exists info, handoffs (log w) = h0 ++ [info]
                     /\ animations info = descs_from 0 acts)
       /\ modal_handler (wm w) = false
       /\ success (progressProps w) = true
  else handoffs (log w) = h0 /\ success (progressProps w) = false.
Proof.
  intros [(i & p & [[] _]) | [(i & p & [[] _]) | [[] Hh]]].
  - destruct sch_current0 as (a & Ha & _).
    assert (i < List.length acts)%nat by (apply nth_error_Some; congruence).
    rewrite sch_index0. apply Nat.leb_gt in H. rewrite H. now split.
  - destruct sch_current0 as (a & Ha & _).
    assert (i < List.length acts)%nat by (apply nth_error_Some; congruence).
    rewrite sch_index0. apply Nat.leb_gt in H. rewrite H. now split.
  - rewrite done_index0, Nat.leb_refl. repeat split; assumption.
Qed.

Lemma reach_registered (w : World) :
  reach w -> modal_handler (wm w) = true ->
  exists i p, running i p w.
Proof.
  intros [Hrun | [(i & p & [_ [Hh _]]) | [_ Hh]]] H; [assumption| |];
    congruence.
Qed.

End Steps.

Lemma deliver_all_unregistered (events : list EventType) (w : World) :
  modal_handler (wm w) = false -> deliver_all events w = Ok [] w.
Proof.
  intros H. induction events as [|ev events IH]; [reflexivity|].
  cbn [deliver_all]. step_monad.
  rewrite (deliver_unregistered ev w H), IH. reflexivity.
Qed.

(** ** The expected ticks, counted *)

Lemma filter_repeat_true {A} (f : A -> bool) (x : A) (n : nat) :
  f x = true -> filter f (repeat x n) = repeat x n.
Proof.
  intros H. induction n as [|n IH]; cbn; [reflexivity|]. now rewrite H, IH.
Qed.

Lemma filter_repeat_false {A} (f : A -> bool) (x : A) (n : nat) :
  f x = false -> filter f (repeat x n) = [].
Proof.
  intros H. induction n as [|n IH]; cbn; [reflexivity|]. now rewrite H, IH.
Qed.

Lemma expected_ticks_length (onlyMarked : bool) (acts : list Action) :
  List.length (expected_ticks onlyMarked acts)
  = (queue_lengths onlyMarked acts + List.length acts)%nat.
Proof.
  unfold queue_lengths, sum_nat.
  induction acts as [|a rest IH]; [reflexivity|].
  cbn [expected_ticks map fold_right List.length].
  rewrite !length_app, repeat_length, IH. cbn [List.length]. lia.
Qed.

Lemma expected_render_ticks (onlyMarked : bool) (acts : list Action) :
  List.length (filter is_render_tick (expected_ticks onlyMarked acts))
  = queue_lengths onlyMarked acts.
Proof.
  unfold queue_lengths, sum_nat.
  induction acts as [|a rest IH]; [reflexivity|].
  cbn [expected_ticks map fold_right].
  rewrite !filter_app, !length_app, IH.
  rewrite filter_repeat_true, repeat_length by reflexivity.
  destruct rest; cbn; lia.
Qed.

Lemma expected_transition_ticks (onlyMarked : bool) (acts : list Action) :
  List.length (filter is_transition_tick (expected_ticks onlyMarked acts))
  = List.length acts.
Proof.
  induction acts as [|a rest IH]; [reflexivity|].
  cbn [expected_ticks List.length].
  rewrite !filter_app, !length_app, IH.
  rewrite filter_repeat_false by reflexivity.
  destruct rest; cbn; lia.
Qed.

Lemma expected_results (onlyMarked : bool) (rest : list Action) :
  forall a,
    map fst (expected_ticks onlyMarked (a :: rest))
    = repeat PASS_THROUGH
        (List.length (expected_ticks onlyMarked (a :: rest)) - 1)
      ++ [FINISHED].
Proof.
  induction rest as [|a' rest IH]; intros a.
  - cbn [expected_ticks]. rewrite app_nil_r, map_app, length_app, repeat_length.
    rewrite map_repeat. cbn [map fst List.length].
    now replace (_ + 1 - 1)%nat with (List.length (queue_of onlyMarked a))
      by lia.
  - change (expected_ticks onlyMarked (a :: a' :: rest))
      with (repeat (PASS_THROUGH, 1%nat)
              (List.length (queue_of onlyMarked a))
            ++ [(PASS_THROUGH, 0%nat)]
            ++ expected_ticks onlyMarked (a' :: rest)).
    rewrite !map_app, !length_app, repeat_length, map_repeat, IH.
    cbn [map fst List.length].
    assert (0 < List.length (expected_ticks onlyMarked (a' :: rest)))%nat.
    { cbn [expected_ticks]. rewrite !length_app. cbn [List.length]. lia. }
    replace (_ + _ - 1)%nat
      with (List.length (queue_of onlyMarked a)
            + (1 + (List.length (expected_ticks onlyMarked (a' :: rest)) - 1)))%nat
      by lia.
    rewrite !repeat_app. cbn [repeat]. now rewrite <- !app_assoc.
Qed.

(** ** When the operator returns without raising *)

Lemma setup_next_action_inv (w w' : World) :
  setup_next_action w = Ok tt w' ->
  exists a o ad,
    nth_error (_actions (self w)) (_action_index (self w)) = Some a
    /\ target (props w) = Some o
    /\ animation_data o = Some ad
    /\ w' = after_setup a o w.
Proof.
  intros H.
  destruct (nth_error (_actions (self w)) (_action_index (self w)))
    as [a|] eqn:Ha.
  - destruct (target (props w)) as [o|] eqn:Ho.
    + destruct (animation_data o) as [ad|] eqn:Had.
      * rewrite (setup_next_action_ok w a o ad Ha Ho Had) in H.
        inversion H. now exists a, o, ad.
      * unfold setup_next_action, current_action_of, assign_action in H.
        step_monad in H. rewrite Ha in H. step_fields in H.
        rewrite Ho, Had in H. discriminate.
    + unfold setup_next_action, current_action_of, assign_action in H.
      step_monad in H. rewrite Ha in H. step_fields in H.
      rewrite Ho in H. discriminate.
  - unfold setup_next_action, current_action_of in H.
    step_monad in H. rewrite Ha in H. discriminate.
Qed.

Lemma finish_inv (w w' : World) :
  finish w = Ok tt w' ->
  exists o, target (props w) = Some o /\ w' = after_finish o w.
Proof.
  intros H. destruct (target (props w)) as [o|] eqn:Ho.
  - rewrite (finish_ok w o Ho) in H. inversion H. now exists o.
  - unfold finish, event_timer_remove in H. step_monad in H.
    step_fields in H. rewrite Ho in H. discriminate.
Qed.

(** A TIMER event that returns is a step followed by steps that neither
    render nor touch the operator's fields. *)
Lemma modal_timer_inv (w w' : World) (r : OpResult) :
  modal TIMER w = Ok r w' ->
  exists w1,
    process_step w = Ok tt w1
    /\ self w' = self w1
    /\ rendered (log w') = rendered (log w1).
Proof.
  rewrite modal_timer.
  destruct (process_step w) as [[] w1|e]; [|discriminate].
  intros H. exists w1. split; [reflexivity|].
  destruct (_ <=? _)%nat.
  - destruct (finish (redraw w1)) as [[] w2|e] eqn:Hf; [|discriminate].
    inversion H; subst.
    destruct (finish_inv _ _ Hf) as (o & _ & ->).
    unfold after_finish. step_fields.
    rewrite rendered_app, finish_log_rendered, app_nil_r.
    now rewrite redraw_self, redraw_rendered.
  - inversion H; subst. now rewrite redraw_self, redraw_rendered.
Qed.

(** ** Runs from [invoke] *)

(** Every world of a run driven by the window manager is one of the run
    invariant. *)
Lemma run_events (w0 : World) (events : list EventType) :
  data_actions w0 <> [] ->
  target_ready w0 ->
  exists w1 rs w,
    invoke w0 = Ok RUNNING_MODAL w1
    /\ deliver_all events w1 = Ok rs w
    /\ Reach (data_actions w0) (onlyRenderMarkedFrames (props w0))
         (rendered (log w0)) (handoffs (log w0)) w.
Proof.
  intros Hne Hready.
  destruct (invoke_running w0 Hne Hready) as (w1 & Hinv & Hrun & _).
  destruct (deliver_all_reach (data_actions w0)
              (onlyRenderMarkedFrames (props w0)) (rendered (log w0))
              (handoffs (log w0)) events w1) as (rs & w & Hall & Hreach).
  { left. now exists 0%nat, 0%nat. }
  now exists w1, rs, w.
Qed.

(** TIMER events alone take the job to its end. *)
Lemma run_to_done (w0 : World) :
  data_actions w0 <> [] ->
  target_ready w0 ->
  exists w1 wf,
    invoke w0 = Ok RUNNING_MODAL w1
    /\ ticks (queue_lengths (onlyRenderMarkedFrames (props w0))
                (data_actions w0)
              + List.length (data_actions w0)) w1
       = Ok (expected_ticks (onlyRenderMarkedFrames (props w0))
               (data_actions w0)) wf
    /\ Done (data_actions w0) (onlyRenderMarkedFrames (props w0))
         (rendered (log w0)) (handoffs (log w0)) wf.
Proof.
  intros Hne Hready.
  destruct (invoke_running w0 Hne Hready) as (w1 & Hinv & Hrun & _).
  destruct (data_actions w0) as [|a rest] eqn:Hacts; [congruence|].
  destruct (run_from _ _ _ _ rest a 0%nat w1 Hrun eq_refl)
    as (wf & Hticks & Hdone).
  rewrite expected_ticks_length in Hticks.
  now exists w1, wf.
Qed.

(** An ESC event delivered while the operator is a modal handler. *)
Lemma deliver_esc (w : World) :
  modal_handler (wm w) = true ->
  exists wc,
    deliver ESC w = Ok (Some CANCELLED) wc
    /\ self wc = self w
    /\ props wc = props w
    /\ log wc = log w ++ [Report "INFO" "Render Cancelled"]
    /\ success (progressProps wc) = success (progressProps w)
    /\ rendering (progressProps wc) = false
    /\ modal_handler (wm wc) = false
    /\ (forall t, _timer (self w) = Some t -> ~ In t (timers (wm wc))).
Proof.
  intros Hh. rewrite (deliver_registered ESC w Hh), modal_esc.
  eexists. split; [reflexivity|]. step_fields.
  repeat split.
  intros t Ht Hin. rewrite Ht in Hin. apply filter_In in Hin.
  destruct Hin as [_ Hneq]. now rewrite Nat.eqb_refl in Hneq.
Qed.

(** * Properties of the operator *)

(** ** Frame enumeration *)

(** C4: when the marked-frames branch is not taken, the frame queue built by
    [setup_next_action] is the inclusive integer sequence from
    floor(interval start) to ceil(interval end): its k-th element is
    floor(start) + k, it holds exactly the integers between the two bounds,
    and for an interval with start <= end its length is
    ceil(end) - floor(start) + 1.  The interval [2.2, 5.6] gives
    [2; 3; 4; 5; 6]. *)
Theorem range_branch_queue (w : World) (a : Action) (o : Object3D)
    (ad : AnimData) :
  nth_error (_actions (self w)) (_action_index (self w)) = Some a ->
  target (props w) = Some o ->
  animation_data o = Some ad ->
  onlyRenderMarkedFrames (props w) = false \/ pose_markers a = [] ->
  exists w',
    setup_next_action w = Ok tt w'
    /\ let q := _frame_queue (self w') in
       let lo := Qfloor (fst (frame_range a)) in
       let hi := Qceiling (snd (frame_range a)) in
       (forall k, (k < List.length q)%nat ->
                  nth_error q k = Some (lo + Z.of_nat k))
       /\ (forall z, In z q <-> lo <= z <= hi)
       /\ Z.of_nat (List.length q) = Z.max 0 (hi - lo + 1)
       /\ ((fst (frame_range a) <= snd (frame_range a))%Q ->
           Z.of_nat (List.length q) = hi - lo + 1)
       /\ (frame_range a = (22 # 10, 56 # 10) -> q = [2; 3; 4; 5; 6]).
Proof.
  intros Ha Ho Had Hbranch.
  exists (after_setup a o w). split; [now apply setup_next_action_ok with ad|].
  unfold after_setup. step_fields. cbv zeta.
  assert (Hq : queue_of (onlyRenderMarkedFrames (props w)) a
               = py_range (Qfloor (fst (frame_range a)))
                          (Qceiling (snd (frame_range a)) + 1)).
  { unfold queue_of. destruct Hbranch as [-> | ->]; [reflexivity|].
    now rewrite andb_false_r. }
  rewrite Hq. split; [|split; [|split; [|split]]].
  - intros k Hk. rewrite py_range_length in Hk. now apply py_range_nth.
  - intros z. rewrite py_range_In. lia.
  - rewrite py_range_length. lia.
  - intros Hle. rewrite py_range_length.
    pose proof (floor_le_ceiling _ _ Hle). lia.
  - intros ->. reflexivity.
Qed.

Lemma range_branch_queue_witness :
  exists w',
    setup_next_action (scene_at_setup [walk] true) = Ok tt w'
    /\ let q := _frame_queue (self w') in
       (forall k, (k < List.length q)%nat ->
                  nth_error q k = Some (2 + Z.of_nat k))
       /\ (forall z, In z q <-> 2 <= z <= 6)
       /\ Z.of_nat (List.length q) = Z.max 0 (6 - 2 + 1)
       /\ ((22 # 10 <= 56 # 10)%Q -> Z.of_nat (List.length q) = 6 - 2 + 1)
       /\ ((22 # 10, 56 # 10) = (22 # 10, 56 # 10) -> q = [2; 3; 4; 5; 6]).
Proof.
  exact (range_branch_queue (scene_at_setup [walk] true) walk cube
           (mkAnimData None) eq_refl eq_refl eq_refl (or_intror eq_refl)).
Defined.

(** C5: when [onlyRenderMarkedFrames] is set and the action has at least one
    pose marker, the frame queue built by [setup_next_action] is the list of
    the markers' frames in the order of the marker collection, sorted or
    not. *)
Theorem marked_branch_queue (w : World) (a : Action) (o : Object3D)
    (ad : AnimData) :
  nth_error (_actions (self w)) (_action_index (self w)) = Some a ->
  target (props w) = Some o ->
  animation_data o = Some ad ->
  onlyRenderMarkedFrames (props w) = true ->
  pose_markers a <> [] ->
  exists w',
    setup_next_action w = Ok tt w'
    /\ _frame_queue (self w') = map frame (pose_markers a).
Proof.
  intros Ha Ho Had Hflag Hm.
  exists (after_setup a o w). split; [now apply setup_next_action_ok with ad|].
  unfold after_setup. step_fields. unfold queue_of. rewrite Hflag.
  destruct (pose_markers a); [contradiction|reflexivity].
Qed.

Lemma marked_branch_queue_witness :
  exists w',
    setup_next_action (scene_at_setup [wave] true) = Ok tt w'
    /\ _frame_queue (self w') = [7; 3; 12].
Proof.
  refine (marked_branch_queue (scene_at_setup [wave] true) wave cube
            (mkAnimData None) eq_refl eq_refl eq_refl eq_refl _).
  discriminate.
Defined.

(** ** One step at a time *)

(** C6: a call of [process_step], and so a TIMER event handled by [modal],
    makes at most one render call.  Either the frame at the current queue
    position is rendered, once, and the position moves on by one (queue and
    action index untouched), or the queue is exhausted and the step (a move to
    the next action, or nothing more) renders nothing.  [process_step] can
    only raise on the second path, before anything was rendered. *)
Theorem advance_renders_at_most_once (w : World) :
  let q := _frame_queue (self w) in
  let p := _frame_queue_index (self w) in
  let one_step (w' : World) :=
    (exists f,
        nth_error q p = Some f
        /\ rendered (log w') = rendered (log w) ++ [f]
        /\ _frame_queue_index (self w') = S p
        /\ _frame_queue (self w') = q
        /\ _action_index (self w') = _action_index (self w))
    \/ ((List.length q <= p)%nat /\ rendered (log w') = rendered (log w)) in
  match process_step w with
  | Ok _ w1 => one_step w1
  | Raised _ => (List.length q <= p)%nat
  end
  /\ forall r w', modal TIMER w = Ok r w' -> one_step w'.
Proof.
  cbv zeta.
  assert (Hstep :
    match process_step w with
    | Ok _ w1 =>
        (exists f,
            nth_error (_frame_queue (self w)) (_frame_queue_index (self w))
              = Some f
            /\ rendered (log w1) = rendered (log w) ++ [f]
            /\ _frame_queue_index (self w1) = S (_frame_queue_index (self w))
            /\ _frame_queue (self w1) = _frame_queue (self w)
            /\ _action_index (self w1) = _action_index (self w))
        \/ ((List.length (_frame_queue (self w))
              <= _frame_queue_index (self w))%nat
            /\ rendered (log w1) = rendered (log w))
    | Raised _ =>
        (List.length (_frame_queue (self w)) <= _frame_queue_index (self w))%nat
    end).
  { destruct (nth_error (_frame_queue (self w)) (_frame_queue_index (self w)))
      as [f|] eqn:Hf.
    - rewrite (process_step_render w f Hf). left. exists f.
      unfold after_render. step_fields.
      rewrite rendered_app, Nat.add_1_r. repeat split; reflexivity.
    - apply nth_error_None in Hf.
      rewrite (process_step_exhausted w Hf). cbv zeta.
      destruct (_ <? _)%nat.
      + destruct (setup_next_action _) as [[] w1|e] eqn:Hs; [|exact Hf].
        right. split; [exact Hf|].
        destruct (setup_next_action_inv _ _ Hs) as (a & o & ad & _ & _ & _ & ->).
        reflexivity.
      + right. split; [exact Hf|reflexivity]. }
  split; [exact Hstep|].
  intros r w' Hm.
  destruct (modal_timer_inv _ _ _ Hm) as (w1 & Hp & Hself & Hlog).
  rewrite Hp in Hstep. rewrite Hself, Hlog. exact Hstep.
Qed.

Lemma advance_renders_at_most_once_witness :
  let w := after_setup walk cube (scene_at_setup [walk] false) in
  let w' := redraw (after_render 2 w) in
  (exists f,
      nth_error (_frame_queue (self w)) (_frame_queue_index (self w)) = Some f
      /\ rendered (log w') = rendered (log w) ++ [f]
      /\ _frame_queue_index (self w') = S (_frame_queue_index (self w))
      /\ _frame_queue (self w') = _frame_queue (self w)
      /\ _action_index (self w') = _action_index (self w))
  \/ ((List.length (_frame_queue (self w)) <= _frame_queue_index (self w))%nat
      /\ rendered (log w') = rendered (log w)).
Proof.
  exact (proj2 (advance_renders_at_most_once
                  (after_setup walk cube (scene_at_setup [walk] false)))
           PASS_THROUGH
           (redraw (after_render 2
              (after_setup walk cube (scene_at_setup [walk] false))))
           eq_refl).
Defined.

(** ** Whole runs *)

(** C7: for a non-empty action list, TIMER events handed to [modal] from the
    started state reach FINISHED after exactly (sum of the frame-queue
    lengths) render ticks plus (number of actions) transition ticks: every
    tick before the last returns PASS_THROUGH, the last one returns FINISHED,
    and the ticks are those fixed by the action list and the policy flag
    alone. *)
Theorem run_reaches_finished (w0 : World) :
  data_actions w0 <> [] ->
  target_ready w0 ->
  let acts := data_actions w0 in
  let onlyMarked := onlyRenderMarkedFrames (props w0) in
  let renders := queue_lengths onlyMarked acts in
  let transitions := List.length acts in
  exists w1 trace wf,
    invoke w0 = Ok RUNNING_MODAL w1
    /\ ticks (renders + transitions) w1 = Ok trace wf
    /\ trace = expected_ticks onlyMarked acts
    /\ map fst trace
       = repeat PASS_THROUGH (renders + transitions - 1) ++ [FINISHED]
    /\ List.length (filter is_render_tick trace) = renders
    /\ List.length (filter is_transition_tick trace) = transitions
    /\ rendered (log wf)
       = rendered (log w0) ++ flat_map (queue_of onlyMarked) acts
    /\ _action_index (self wf) = List.length acts
    /\ success (progressProps wf) = true.
Proof.
  intros Hne Hready. cbv zeta.
  destruct (run_to_done w0 Hne Hready) as (w1 & wf & Hinv & Hticks & Hdone).
  exists w1,
    (expected_ticks (onlyRenderMarkedFrames (props w0)) (data_actions w0)),
    wf.
  destruct (data_actions w0) as [|a rest] eqn:Hacts; [congruence|].
  repeat split.
  - exact Hinv.
  - exact Hticks.
  - rewrite expected_results, expected_ticks_length. reflexivity.
  - apply expected_render_ticks.
  - apply expected_transition_ticks.
  - now destruct Hdone.
  - now destruct Hdone.
  - now destruct Hdone.
Qed.

Lemma run_reaches_finished_witness :
  let w0 := scene [walk; wave] true in
  exists w1 trace wf,
    invoke w0 = Ok RUNNING_MODAL w1
    /\ ticks (queue_lengths true [walk; wave] + 2) w1 = Ok trace wf
    /\ trace = expected_ticks true [walk; wave]
    /\ map fst trace
       = repeat PASS_THROUGH (queue_lengths true [walk; wave] + 2 - 1)
         ++ [FINISHED]
    /\ List.length (filter is_render_tick trace)
       = queue_lengths true [walk; wave]
    /\ List.length (filter is_transition_tick trace) = 2%nat
    /\ rendered (log wf) = [] ++ flat_map (queue_of true) [walk; wave]
    /\ _action_index (self wf) = 2%nat
    /\ success (progressProps wf) = true.
Proof.
  refine (run_reaches_finished (scene [walk; wave] true) _ _).
  - discriminate.
  - exists cube, (mkAnimData None). split; reflexivity.
Defined.

(** The run of the witness, computed: eight render ticks (five frames of the
    range of Walk, the three markers of Wave), two transition ticks. *)
Example two_action_run :
  exists w1 wf,
    invoke (scene [walk; wave] true) = Ok RUNNING_MODAL w1
    /\ ticks 10 w1
       = Ok (repeat (PASS_THROUGH, 1%nat) 5 ++ [(PASS_THROUGH, 0%nat)]
             ++ repeat (PASS_THROUGH, 1%nat) 3 ++ [(FINISHED, 0%nat)]) wf
    /\ rendered (log wf) = [2; 3; 4; 5; 6; 7; 3; 12]
    /\ _animation_descs (self wf) = [mkDesc "Walk" 4; mkDesc "Wave" 24].
Proof.
  do 2 eexists. split; [vm_compute; reflexivity|].
  split; [vm_compute; reflexivity|]. split; reflexivity.
Qed.

(** ** The cumulative frame count and the descriptors *)

(** C2: whenever an action becomes current, [_global_frame_end] grows by the
    interval-derived count ceil(end) - floor(start) and the descriptor
    appended carries the new total, whatever the policy flag and the markers
    say, hence whichever branch filled the frame queue.  Two actions with
    intervals [0, 10] and [0, 4] give the descriptors A/10 and B/14, in the
    operator and in the payload handed to [finish]. *)
Theorem metadata_counter_interval_derived :
  (forall (w : World) (a : Action) (o : Object3D) (ad : AnimData),
      nth_error (_actions (self w)) (_action_index (self w)) = Some a ->
      target (props w) = Some o ->
      animation_data o = Some ad ->
      exists w',
        setup_next_action w = Ok tt w'
        /\ _global_frame_end (self w')
           = _global_frame_end (self w)
             + (Qceiling (snd (frame_range a)) - Qfloor (fst (frame_range a)))
        /\ _animation_descs (self w')
           = _animation_descs (self w)
             ++ [mkDesc (name a) (_global_frame_end (self w'))])
  /\ (forall (w0 : World) (markers_A markers_B : list Marker),
        data_actions w0 = [mkAction "A" (0 # 1, 10 # 1) markers_A;
                           mkAction "B" (0 # 1, 4 # 1) markers_B] ->
        target_ready w0 ->
        exists w1 n trace wf info,
          invoke w0 = Ok RUNNING_MODAL w1
          /\ ticks n w1 = Ok trace wf
          /\ _animation_descs (self wf) = [mkDesc "A" 10; mkDesc "B" 14]
          /\ handoffs (log wf) = handoffs (log w0) ++ [info]
          /\ animations info = [mkDesc "A" 10; mkDesc "B" 14]).
Proof.
  split.
  - intros w a o ad Ha Ho Had.
    exists (after_setup a o w).
    split; [now apply setup_next_action_ok with ad|].
    split; reflexivity.
  - intros w0 mA mB Hacts Hready.
    destruct (run_to_done w0) as (w1 & wf & Hinv & Hticks & Hdone);
      [rewrite Hacts; discriminate|assumption|].
    destruct Hdone. destruct done_handoffs0 as (info & Hh & Hinfo).
    rewrite Hacts in *.
    do 3 eexists. exists wf, info.
    split; [exact Hinv|]. split; [exact Hticks|].
    split; [exact done_descs0|]. split; [exact Hh|exact Hinfo].
Qed.

Lemma metadata_counter_interval_derived_witness :
  (exists w',
      setup_next_action (scene_at_setup [wave] true) = Ok tt w'
      /\ _global_frame_end (self w') = 0 + (20 - 0)
      /\ _animation_descs (self w')
         = [] ++ [mkDesc "Wave" (_global_frame_end (self w'))])
  /\ (exists w1 n trace wf info,
        invoke (scene [action_A; action_B] false) = Ok RUNNING_MODAL w1
        /\ ticks n w1 = Ok trace wf
        /\ _animation_descs (self wf) = [mkDesc "A" 10; mkDesc "B" 14]
        /\ handoffs (log wf) = [] ++ [info]
        /\ animations info = [mkDesc "A" 10; mkDesc "B" 14]).
Proof.
  split.
  - exact (proj1 metadata_counter_interval_derived
             (scene_at_setup [wave] true) wave cube (mkAnimData None)
             eq_refl eq_refl eq_refl).
  - refine (proj2 metadata_counter_interval_derived
              (scene [action_A; action_B] false) [] [] eq_refl _).
    exists cube, (mkAnimData None). split; reflexivity.
Defined.

(** C1, as the operator has it: in every world of a run, the cumulative frame
    count is the sum of the interval-derived counts ceil(end) - floor(start)
    of the actions begun so far (actions 0 to the current index), whichever
    branch filled their frame queues.  It is not the sum of the queue
    lengths. *)
Theorem cumulative_count_sums_intervals (w0 : World)
    (events : list EventType) :
  data_actions w0 <> [] ->
  target_ready w0 ->
  exists w1 rs w,
    invoke w0 = Ok RUNNING_MODAL w1
    /\ deliver_all events w1 = Ok rs w
    /\ _global_frame_end (self w)
       = sum_Z (map (fun a => Qceiling (snd (frame_range a))
                              - Qfloor (fst (frame_range a)))
                  (firstn (S (_action_index (self w))) (data_actions w0))).
Proof.
  intros Hne Hready.
  destruct (run_events w0 events Hne Hready) as (w1 & rs & w & Hi & Hd & Hr).
  exists w1, rs, w. split; [exact Hi|]. split; [exact Hd|].
  exact (reach_total _ _ _ _ w Hr).
Qed.

Lemma cumulative_count_sums_intervals_witness :
  exists w1 rs w,
    invoke (scene [walk; wave] true) = Ok RUNNING_MODAL w1
    /\ deliver_all (repeat TIMER 7) w1 = Ok rs w
    /\ _global_frame_end (self w)
       = sum_Z (map (fun a => Qceiling (snd (frame_range a))
                              - Qfloor (fst (frame_range a)))
                  (firstn (S (_action_index (self w))) [walk; wave])).
Proof.
  refine (cumulative_count_sums_intervals (scene [walk; wave] true)
            (repeat TIMER 7) _ _).
  - discriminate.
  - exists cube, (mkAnimData None). split; reflexivity.
Defined.

(** C1 as stated fails in both branches: with one action over [0, 10] the
    range branch queues eleven frames and the count is 10; with the three
    markers of Wave over [0, 20] the marked branch queues three frames and
    the count is 20. *)
Lemma cumulative_count_is_not_queue_length :
  (exists w1,
      invoke (scene [action_A] false) = Ok RUNNING_MODAL w1
      /\ _action_index (self w1) = 0%nat
      /\ _frame_queue (self w1) = [0; 1; 2; 3; 4; 5; 6; 7; 8; 9; 10]
      /\ _global_frame_end (self w1) = 10
      /\ _global_frame_end (self w1)
         <> Z.of_nat (List.length (_frame_queue (self w1))))
  /\ (exists w1,
        invoke (scene [wave] true) = Ok RUNNING_MODAL w1
        /\ _action_index (self w1) = 0%nat
        /\ _frame_queue (self w1) = [7; 3; 12]
        /\ _global_frame_end (self w1) = 20
        /\ _global_frame_end (self w1)
           <> Z.of_nat (List.length (_frame_queue (self w1)))).
Proof.
  split; eexists; (split; [vm_compute; reflexivity|]);
    repeat split; discriminate.
Qed.

(** C10: the descriptor of an action, and the increment of the cumulative
    count, are written by [setup_next_action], at the moment the action
    becomes current: the queue position is 0 and nothing is rendered by the
    setup.  So in every world of a run, cancelled ones included, the last
    descriptor is that of the current action, however few of its frames were
    rendered. *)
Theorem descriptor_appended_when_action_begins :
  (forall (w : World) (a : Action) (o : Object3D) (ad : AnimData),
      nth_error (_actions (self w)) (_action_index (self w)) = Some a ->
      target (props w) = Some o ->
      animation_data o = Some ad ->
      exists w',
        setup_next_action w = Ok tt w'
        /\ _animation_descs (self w')
           = _animation_descs (self w)
             ++ [mkDesc (name a)
                   (_global_frame_end (self w)
                    + fst (fst (frame_count (frame_range a))))]
        /\ _frame_queue_index (self w') = 0%nat
        /\ log w' = log w)
  /\ (forall (w0 : World) (events : list EventType),
        data_actions w0 <> [] ->
        target_ready w0 ->
        exists w1 rs w,
          invoke w0 = Ok RUNNING_MODAL w1
          /\ deliver_all events w1 = Ok rs w
          /\ forall a,
               nth_error (data_actions w0) (_action_index (self w)) = Some a ->
               exists earlier,
                 _animation_descs (self w)
                 = earlier
                   ++ [mkDesc (name a)
                         (cumulative (data_actions w0)
                            (S (_action_index (self w))))]
                 /\ List.length earlier = _action_index (self w)).
Proof.
  split.
  - intros w a o ad Ha Ho Had.
    exists (after_setup a o w).
    split; [now apply setup_next_action_ok with ad|].
    repeat split.
  - intros w0 events Hne Hready.
    destruct (run_events w0 events Hne Hready) as (w1 & rs & w & Hi & Hd & Hr).
    exists w1, rs, w. split; [exact Hi|]. split; [exact Hd|].
    intros a Ha.
    rewrite (reach_descs _ _ _ _ w Hr), (firstn_snoc _ _ _ Ha).
    rewrite descs_from_snoc.
    exists (descs_from 0 (firstn (_action_index (self w)) (data_actions w0))).
    split.
    + unfold cumulative. rewrite (firstn_snoc _ _ _ Ha), map_app, sum_Z_app.
      unfold sum_Z at 3. cbn [map fold_right].
      do 3 f_equal. lia.
    + rewrite descs_from_length, length_firstn.
      assert (_action_index (self w) < List.length (data_actions w0))%nat
        by (apply nth_error_Some; congruence).
      lia.
Qed.

Lemma descriptor_appended_when_action_begins_witness :
  (exists w',
      setup_next_action (scene_at_setup [wave] true) = Ok tt w'
      /\ _animation_descs (self w') = [] ++ [mkDesc "Wave" (0 + 20)]
      /\ _frame_queue_index (self w') = 0%nat
      /\ log w' = [])
  /\ (exists w1 rs w,
        invoke (scene [action_A; action_B] false) = Ok RUNNING_MODAL w1
        /\ deliver_all [TIMER; TIMER; ESC; TIMER] w1 = Ok rs w
        /\ forall a,
             nth_error [action_A; action_B] (_action_index (self w)) = Some a ->
             exists earlier,
               _animation_descs (self w)
               = earlier
                 ++ [mkDesc (name a)
                       (cumulative [action_A; action_B]
                          (S (_action_index (self w))))]
               /\ List.length earlier = _action_index (self w)).
Proof.
  split.
  - exact (proj1 descriptor_appended_when_action_begins
             (scene_at_setup [wave] true) wave cube (mkAnimData None)
             eq_refl eq_refl eq_refl).
  - refine (proj2 descriptor_appended_when_action_begins
              (scene [action_A; action_B] false) [TIMER; TIMER; ESC; TIMER]
              _ _).
    + discriminate.
    + exists cube, (mkAnimData None). split; reflexivity.
Defined.

(** A job cancelled after two of the eleven frames of its first action: the
    descriptor of that action is already there, and the TIMER event after the
    ESC is not delivered. *)
Example cancelled_mid_action :
  exists w1 w,
    invoke (scene [action_A; action_B] false) = Ok RUNNING_MODAL w1
    /\ deliver_all [TIMER; TIMER; ESC; TIMER] w1
       = Ok [PASS_THROUGH; PASS_THROUGH; CANCELLED] w
    /\ rendered (log w) = [0; 1]
    /\ _animation_descs (self w) = [mkDesc "A" 10]
    /\ handoffs (log w) = []
    /\ success (progressProps w) = false
    /\ rendering (progressProps w) = false.
Proof.
  do 2 eexists. split; [vm_compute; reflexivity|].
  split; [vm_compute; reflexivity|]. repeat split.
Qed.

(** ** Starting on an empty action list *)

(** C3, as the operator has it: invoked with no actions, the operator reports
    "No actions found" and returns CANCELLED without starting the job: no
    action is set up, no timer and no modal handler is registered, nothing is
    rendered or handed off.  The initialisation that precedes the check has
    run: the scheduler fields are reset (no actions, index 0, no descriptors,
    count 0) and the progress fields [success] and [actionTotal] are written. *)
Theorem start_on_empty_action_list (w0 : World) :
  data_actions w0 = [] ->
  exists w',
    invoke w0 = Ok CANCELLED w'
    /\ log w' = log w0 ++ [Report "WARNING" "No actions found"]
    /\ wm w' = wm w0
    /\ props w' = props w0
    /\ frame_current w' = frame_current w0
    /\ _timer (self w') = _timer (self w0)
    /\ _frame_queue (self w') = _frame_queue (self w0)
    /\ _frame_queue_index (self w') = _frame_queue_index (self w0)
    /\ _actions (self w') = []
    /\ _action_index (self w') = 0%nat
    /\ _animation_descs (self w') = []
    /\ _global_frame_end (self w') = 0
    /\ success (progressProps w') = false
    /\ actionTotal (progressProps w') = 0%nat
    /\ actionName (progressProps w') = actionName (progressProps w0)
    /\ actionIndex (progressProps w') = actionIndex (progressProps w0)
    /\ tileTotal (progressProps w') = tileTotal (progressProps w0)
    /\ tileIndex (progressProps w') = tileIndex (progressProps w0).
Proof.
  intros Hacts. rewrite (invoke_empty w0 Hacts).
  eexists. split; [reflexivity|]. repeat split.
Qed.

Lemma start_on_empty_action_list_witness :
  exists w',
    invoke scene_after_success = Ok CANCELLED w'
    /\ log w' = [] ++ [Report "WARNING" "No actions found"]
    /\ wm w' = mkWm [] 1 false
    /\ props w' = scene_props false
    /\ frame_current w' = 4
    /\ _timer (self w') = None
    /\ _frame_queue (self w') = []
    /\ _frame_queue_index (self w') = 0%nat
    /\ _actions (self w') = []
    /\ _action_index (self w') = 0%nat
    /\ _animation_descs (self w') = []
    /\ _global_frame_end (self w') = 0
    /\ success (progressProps w') = false
    /\ actionTotal (progressProps w') = 0%nat
    /\ actionName (progressProps w') = "B"
    /\ actionIndex (progressProps w') = 1%nat
    /\ tileTotal (progressProps w') = 5%nat
    /\ tileIndex (progressProps w') = 4.
Proof.
  exact (start_on_empty_action_list scene_after_success eq_refl).
Defined.

(** C3 as stated fails: the progress state is written before the check. *)
Lemma start_on_empty_action_list_mutates :
  exists w',
    invoke scene_after_success = Ok CANCELLED w'
    /\ success (progressProps scene_after_success) = true
    /\ success (progressProps w') = false
    /\ actionTotal (progressProps scene_after_success) = 2%nat
    /\ actionTotal (progressProps w') = 0%nat
    /\ progressProps w' <> progressProps scene_after_success.
Proof.
  eexists. split; [vm_compute; reflexivity|].
  repeat split. discriminate.
Qed.

(** ** The end of a run *)

(** An event delivered while the job runs reaches [modal], which returns
    PASS_THROUGH and leaves the job running, or CANCELLED ([cancel]), or
    FINISHED, with [finish] run. *)
Lemma deliver_running (acts : list Action) (onlyMarked : bool) (r0 : list Z)
    (h0 : list JsonInfo) (ev : EventType) (i p : nat) (w : World) :
  Running acts onlyMarked r0 h0 i p w ->
  exists r w',
    deliver ev w = Ok (Some r) w'
    /\ ((r = PASS_THROUGH
         /\ exists i' p', Running acts onlyMarked r0 h0 i' p' w')
        \/ (r = CANCELLED /\ Stopped acts onlyMarked r0 h0 i p w')
        \/ (r = FINISHED /\ Done acts onlyMarked r0 h0 w'
            /\ modal_handler (wm w') = false)).
Proof.
  intros Hrun. pose proof Hrun as [Hs [Hh Hr]].
  rewrite (deliver_registered _ _ Hh). destruct ev.
  - destruct (esc_cancels _ _ _ _ i p w Hrun) as (w' & -> & Hs' & _ & Hr' & _).
    do 2 eexists. split; [reflexivity|]. right; left.
    split; [reflexivity|]. split; [|split].
    + now apply sched_unregister.
    + reflexivity.
    + exact Hr'.
  - destruct (tick_cases _ _ _ _ i p w Hrun)
      as [[f Hf] | [[Hle Hi] | [Hle Hi]]].
    + destruct (tick_render _ _ _ _ i p w f Hrun Hf) as (w' & -> & Hrun' & _).
      do 2 eexists. split; [reflexivity|]. left. split; [reflexivity|]. eauto.
    + destruct (tick_next _ _ _ _ i p w Hrun Hle Hi) as (w' & -> & Hrun' & _).
      do 2 eexists. split; [reflexivity|]. left. split; [reflexivity|]. eauto.
    + destruct (tick_last _ _ _ _ i p w Hrun Hle Hi) as (w' & -> & Hd & _).
      do 2 eexists. split; [reflexivity|]. right; right.
      split; [reflexivity|]. split; [now apply done_unregister|reflexivity].
  - cbn [modal]. unfold ret.
    do 2 eexists. split; [reflexivity|]. left. split; [reflexivity|]. eauto.
Qed.

Lemma running_index (acts : list Action) (onlyMarked : bool) (r0 : list Z)
    (h0 : list JsonInfo) (i p : nat) (w : World) :
  Sched acts onlyMarked r0 h0 i p w ->
  (_action_index (self w) < List.length acts)%nat.
Proof.
  intros []. destruct sch_current0 as (a & Ha & _).
  rewrite sch_index0. apply nth_error_Some. congruence.
Qed.

(** The results of the events of a run: PASS_THROUGH as long as the job
    runs, then at most one result more, FINISHED exactly when the action
    index has reached the action count. *)
Lemma run_results (acts : list Action) (onlyMarked : bool) (r0 : list Z)
    (h0 : list JsonInfo) (events : list EventType) :
  forall i p w,
    Running acts onlyMarked r0 h0 i p w ->
    exists rs w',
      deliver_all events w = Ok rs w'
      /\ Reach acts onlyMarked r0 h0 w'
      /\ ((_action_index (self w') < List.length acts)%nat ->
          ~ In FINISHED rs)
      /\ ((List.length acts <= _action_index (self w'))%nat ->
          exists before,
            rs = before ++ [FINISHED] /\ Forall (eq PASS_THROUGH) before).
Proof.
  induction events as [|ev events IH]; intros i p w Hrun.
  - exists [], w. split; [reflexivity|]. split; [left; eauto|].
    destruct Hrun as [Hs _]. pose proof (running_index _ _ _ _ _ _ _ Hs).
    split; [intros _ []|lia].
  - destruct (deliver_running _ _ _ _ ev i p w Hrun)
      as (r & w1 & Hd & [(-> & i' & p' & Hrun1)
                        | [(-> & Hst) | (-> & Hdone & Hoff)]]);
      cbn [deliver_all]; step_monad; rewrite Hd.
    + destruct (IH i' p' w1 Hrun1) as (rs & w' & -> & Hr & Hlt & Hge).
      do 2 eexists. split; [reflexivity|]. split; [exact Hr|]. split.
      * intros H [Heq|Hin]; [discriminate|]. now apply Hlt.
      * intros H. destruct (Hge H) as (before & -> & Hall).
        exists (PASS_THROUGH :: before). split; [reflexivity|].
        now constructor.
    + destruct Hst as [Hs [Hoff Hr]].
      rewrite (deliver_all_unregistered events w1 Hoff).
      do 2 eexists. split; [reflexivity|].
      split; [right; left; exists i, p; now split|].
      pose proof (running_index _ _ _ _ _ _ _ Hs).
      split; [intros _ [Heq|[]]; discriminate|lia].
    + rewrite (deliver_all_unregistered events w1 Hoff).
      do 2 eexists. split; [reflexivity|].
      split; [right; right; now split|].
      destruct Hdone. split; [lia|].
      intros _. exists []. split; [reflexivity|constructor].
Qed.

Lemma no_finished_filter (rs : list OpResult) :
  ~ In FINISHED rs -> filter is_finished rs = [].
Proof.
  induction rs as [|r rs IH]; intros H; [reflexivity|].
  cbn [filter]. destruct r; cbn [is_finished];
    try (apply IH; intros Hin; apply H; now right).
  exfalso. apply H. now left.
Qed.

Lemma pass_through_filter (rs : list OpResult) :
  Forall (eq PASS_THROUGH) rs -> filter is_finished rs = [].
Proof.
  intros H. apply no_finished_filter. intros Hin.
  rewrite Forall_forall in H. specialize (H _ Hin). discriminate.
Qed.

(** C8, as the operator has it: in every run driven by the window manager,
    [finish] runs at most once, once for every FINISHED that [modal]
    returns.  It runs on the event on which the action index reaches the
    action count, and [modal] returns FINISHED on that event and on no other:
    the results of a finished run are PASS_THROUGH up to a last FINISHED, and
    an unfinished run has returned no FINISHED and run no [finish].  After
    FINISHED the operator is no modal handler any more, and every further
    event is kept from it and leaves the world as it is.  The operator itself
    has no guard (see [timer_after_finished_runs_finish_again]). *)
Theorem finish_runs_at_most_once (w0 : World) (events : list EventType) :
  data_actions w0 <> [] ->
  target_ready w0 ->
  exists w1 rs w,
    invoke w0 = Ok RUNNING_MODAL w1
    /\ deliver_all events w1 = Ok rs w
    /\ (List.length (handoffs (log w))
        <= S (List.length (handoffs (log w0))))%nat
    /\ ((List.length (_actions (self w)) <= _action_index (self w))%nat ->
        List.length (handoffs (log w)) = S (List.length (handoffs (log w0)))
        /\ modal_handler (wm w) = false
        /\ forall more, deliver_all more w = Ok [] w)
    /\ List.length (handoffs (log w))
       = (List.length (handoffs (log w0))
          + List.length (filter is_finished rs))%nat
    /\ ((List.length (_actions (self w)) <= _action_index (self w))%nat ->
        exists before,
          rs = before ++ [FINISHED] /\ Forall (eq PASS_THROUGH) before)
    /\ ((_action_index (self w) < List.length (_actions (self w)))%nat ->
        ~ In FINISHED rs /\ handoffs (log w) = handoffs (log w0))
    /\ forall ev,
         exists r w',
           deliver ev w = Ok r w'
           /\ ((_action_index (self w) < List.length (_actions (self w)))%nat ->
               (List.length (_actions (self w))
                <= _action_index (self w'))%nat ->
               r = Some FINISHED
               /\ exists info,
                    handoffs (log w') = handoffs (log w) ++ [info])
           /\ ((_action_index (self w') < List.length (_actions (self w)))%nat ->
               r <> Some FINISHED
               /\ handoffs (log w') = handoffs (log w)).
Proof.
  intros Hne Hready.
  destruct (invoke_running w0 Hne Hready) as (w1 & Hi & Hrun & _).
  destruct (run_results _ _ _ _ events 0%nat 0%nat w1 Hrun)
    as (rs & w & Hd & Hr & Hlt & Hge).
  exists w1, rs, w. split; [exact Hi|]. split; [exact Hd|].
  pose proof (reach_handoffs _ _ _ _ w Hr) as Hh.
  rewrite (reach_actions _ _ _ _ w Hr).
  destruct (_ <=? _)%nat eqn:Hend.
  - apply Nat.leb_le in Hend.
    destruct Hh as ((info & Hlog & _) & Hreg & _).
    destruct (Hge Hend) as (before & Hrs & Hall).
    rewrite Hlog, length_app, Nat.add_1_r. split; [lia|].
    split.
    { intros _. split; [reflexivity|]. split; [exact Hreg|].
      intros more. now apply deliver_all_unregistered. }
    split.
    { rewrite Hrs, filter_app, (pass_through_filter _ Hall).
      cbn. lia. }
    split; [intros _; now exists before|].
    split; [intros Hlt'; lia|].
    intros ev. rewrite (deliver_unregistered ev w Hreg).
    exists None, w. split; [reflexivity|]. split; intros; lia.
  - apply Nat.leb_gt in Hend. destruct Hh as (Hlog & _).
    rewrite Hlog. split; [lia|].
    split; [intros Hge'; lia|].
    split; [rewrite (no_finished_filter _ (Hlt Hend)); cbn; lia|].
    split; [intros Hge'; lia|].
    split; [intros _; split; [now apply Hlt|reflexivity]|].
    intros ev.
    destruct (modal_handler (wm w)) eqn:Hreg.
    + destruct (reach_registered _ _ _ _ w Hr Hreg) as (i & p & Hrun').
      destruct (deliver_running _ _ _ _ ev i p w Hrun')
        as (r & w' & Hdel & [(Hres & i' & p' & [Hs' _])
                            | [(Hres & [Hs' _]) | (Hres & Hdone & _)]]);
        exists (Some r), w'; subst r; (split; [exact Hdel|]).
      * pose proof (running_index _ _ _ _ _ _ _ Hs').
        split; [intros; lia|]. destruct Hs'.
        intros _. split; [discriminate|congruence].
      * pose proof (running_index _ _ _ _ _ _ _ Hs').
        split; [intros; lia|]. destruct Hs'.
        intros _. split; [discriminate|congruence].
      * destruct Hdone. destruct done_handoffs0 as (info & Hinfo & _).
        split; [|intros; lia].
        intros _ _. split; [reflexivity|]. exists info. congruence.
    + rewrite (deliver_unregistered ev w Hreg).
      exists None, w. split; [reflexivity|].
      split; [intros; lia|]. intros _. split; [discriminate|exact Hlog].
Qed.

Lemma finish_runs_at_most_once_witness :
  exists w1 rs w,
    invoke (scene [action_B] false) = Ok RUNNING_MODAL w1
    /\ deliver_all (repeat TIMER 8) w1 = Ok rs w
    /\ (List.length (handoffs (log w)) <= 1)%nat
    /\ ((List.length (_actions (self w)) <= _action_index (self w))%nat ->
        List.length (handoffs (log w)) = 1%nat
        /\ modal_handler (wm w) = false
        /\ forall more, deliver_all more w = Ok [] w)
    /\ List.length (handoffs (log w))
       = (0 + List.length (filter is_finished rs))%nat
    /\ ((List.length (_actions (self w)) <= _action_index (self w))%nat ->
        exists before,
          rs = before ++ [FINISHED] /\ Forall (eq PASS_THROUGH) before)
    /\ ((_action_index (self w) < List.length (_actions (self w)))%nat ->
        ~ In FINISHED rs /\ handoffs (log w) = [])
    /\ forall ev,
         exists r w',
           deliver ev w = Ok r w'
           /\ ((_action_index (self w) < List.length (_actions (self w)))%nat ->
               (List.length (_actions (self w))
                <= _action_index (self w'))%nat ->
               r = Some FINISHED
               /\ exists info,
                    handoffs (log w') = handoffs (log w) ++ [info])
           /\ ((_action_index (self w') < List.length (_actions (self w)))%nat ->
               r <> Some FINISHED
               /\ handoffs (log w') = handoffs (log w)).
Proof.
  refine (finish_runs_at_most_once (scene [action_B] false)
            (repeat TIMER 8) _ _).
  - discriminate.
  - exists cube, (mkAnimData None). split; reflexivity.
Defined.

(** Eight TIMER events on a job of six ticks: the last two are not
    delivered. *)
Example events_after_finished :
  exists w1 w,
    invoke (scene [action_B] false) = Ok RUNNING_MODAL w1
    /\ deliver_all (repeat TIMER 8) w1
       = Ok (repeat PASS_THROUGH 5 ++ [FINISHED]) w
    /\ rendered (log w) = [0; 1; 2; 3; 4]
    /\ List.length (handoffs (log w)) = 1%nat
    /\ success (progressProps w) = true.
Proof.
  do 2 eexists. split; [vm_compute; reflexivity|].
  split; [vm_compute; reflexivity|]. repeat split.
Qed.

(** C8 as stated fails on the operator: a TIMER event handed to [modal] after
    it returned FINISHED is no no-op.  [process_step] finds the queue
    exhausted and increments the action index once more, and [modal], its
    check on the index true again, runs [finish] a second time. *)
Lemma timer_after_finished_runs_finish_again :
  exists w1 trace wf ws w',
    invoke (scene [action_B] false) = Ok RUNNING_MODAL w1
    /\ ticks 6 w1 = Ok trace wf
    /\ map fst trace = repeat PASS_THROUGH 5 ++ [FINISHED]
    /\ _action_index (self wf) = 1%nat
    /\ process_step wf = Ok tt ws
    /\ _action_index (self ws) = 2%nat
    /\ modal TIMER wf = Ok FINISHED w'
    /\ _action_index (self w') = 2%nat
    /\ List.length (handoffs (log wf)) = 1%nat
    /\ List.length (handoffs (log w')) = 2%nat
    /\ w' <> wf.
Proof.
  do 5 eexists. split; [vm_compute; reflexivity|].
  split; [vm_compute; reflexivity|].
  split; [reflexivity|]. split; [reflexivity|].
  split; [vm_compute; reflexivity|]. split; [reflexivity|].
  split; [vm_compute; reflexivity|].
  repeat split. discriminate.
Qed.

(** C9, as the operator has it: an ESC event delivered while the job runs
    makes [modal] return CANCELLED: the timer is removed and the rendering
    flag cleared, the scheduler fields stay as they are, [finish] has not run
    and the success flag is false.  The operator is then no modal handler any
    more: every further event, TIMER or ESC, is kept from it and leaves the
    world as it is.  The operator itself has no guard (see
    [timer_after_cancel_renders]). *)
Theorem cancel_ends_run (w0 : World) (events : list EventType) :
  data_actions w0 <> [] ->
  target_ready w0 ->
  exists w1 rs w,
    invoke w0 = Ok RUNNING_MODAL w1
    /\ deliver_all events w1 = Ok rs w
    /\ (modal_handler (wm w) = true ->
        exists wc,
          deliver ESC w = Ok (Some CANCELLED) wc
          /\ self wc = self w
          /\ handoffs (log wc) = handoffs (log w0)
          /\ success (progressProps wc) = false
          /\ rendering (progressProps wc) = false
          /\ modal_handler (wm wc) = false
          /\ (forall t, _timer (self w) = Some t -> ~ In t (timers (wm wc)))
          /\ forall more, deliver_all more wc = Ok [] wc).
Proof.
  intros Hne Hready.
  destruct (run_events w0 events Hne Hready) as (w1 & rs & w & Hi & Hd & Hr).
  exists w1, rs, w. split; [exact Hi|]. split; [exact Hd|].
  intros Hreg.
  destruct (reach_registered _ _ _ _ w Hr Hreg) as (i & p & [[] _]).
  destruct (deliver_esc w Hreg)
    as (wc & Hesc & Hself & _ & Hlog & Hsucc & Hrend & Hoff & Htimer).
  exists wc. split; [exact Hesc|]. split; [exact Hself|].
  split.
  { rewrite Hlog, handoffs_app, sch_handoffs0. apply app_nil_r. }
  split; [congruence|]. split; [exact Hrend|]. split; [exact Hoff|].
  split; [exact Htimer|].
  intros more. now apply deliver_all_unregistered.
Qed.

Lemma cancel_ends_run_witness :
  exists w1 rs w,
    invoke (scene [action_A; action_B] false) = Ok RUNNING_MODAL w1
    /\ deliver_all [TIMER; TIMER] w1 = Ok rs w
    /\ (modal_handler (wm w) = true ->
        exists wc,
          deliver ESC w = Ok (Some CANCELLED) wc
          /\ self wc = self w
          /\ handoffs (log wc) = []
          /\ success (progressProps wc) = false
          /\ rendering (progressProps wc) = false
          /\ modal_handler (wm wc) = false
          /\ (forall t, _timer (self w) = Some t -> ~ In t (timers (wm wc)))
          /\ forall more, deliver_all more wc = Ok [] wc).
Proof.
  refine (cancel_ends_run (scene [action_A; action_B] false) [TIMER; TIMER]
            _ _).
  - discriminate.
  - exists cube, (mkAnimData None). split; reflexivity.
Defined.

(** C9 as stated fails on the operator: a TIMER event handed to [modal] after
    [cancel] renders the next frame, and a second ESC runs [cancel] again,
    which reports again. *)
Lemma timer_after_cancel_renders :
  exists w1 wc w' wc2,
    invoke (scene [action_B] false) = Ok RUNNING_MODAL w1
    /\ modal ESC w1 = Ok CANCELLED wc
    /\ modal TIMER wc = Ok PASS_THROUGH w'
    /\ rendered (log wc) = []
    /\ rendered (log w') = [0]
    /\ _frame_queue_index (self wc) = 0%nat
    /\ _frame_queue_index (self w') = 1%nat
    /\ w' <> wc
    /\ modal ESC wc = Ok CANCELLED wc2
    /\ log wc2 = log wc ++ [Report "INFO" "Render Cancelled"]
    /\ wc2 <> wc.
Proof.
  do 4 eexists. split; [vm_compute; reflexivity|].
  split; [vm_compute; reflexivity|].
  split; [vm_compute; reflexivity|].
  do 4 (split; [reflexivity|]).
  split; [discriminate|].
  split; [vm_compute; reflexivity|].
  split; [reflexivity|discriminate].
Qed.

(** * Further properties *)

(** ** Rounding of the frame interval *)

(** X1: [frame_count] rounds the interval outwards to whole frames: frameMin
    is the largest integer not above the start, frameMax the smallest integer
    not below the end, and the count is their difference. *)
Theorem frame_count_brackets (frame_range : Q * Q) :
  let '(count, frameMin, frameMax) := frame_count frame_range in
  (inject_Z frameMin <= fst frame_range < inject_Z (frameMin + 1))%Q
  /\ (inject_Z (frameMax - 1) < snd frame_range <= inject_Z frameMax)%Q
  /\ count = frameMax - frameMin.
Proof.
  unfold frame_count. cbv zeta.
  repeat split.
  - apply Qfloor_le.
  - apply Qlt_floor.
  - apply Qceiling_lt.
  - apply Qle_ceiling.
Qed.

(** X2: for an interval with start <= end the count is not negative, it is at
    least the width of the interval and less than the width plus two. *)
Theorem frame_count_width (frame_range : Q * Q) :
  (fst frame_range <= snd frame_range)%Q ->
  let count := fst (fst (frame_count frame_range)) in
  0 <= count
  /\ (snd frame_range - fst frame_range <= inject_Z count)%Q
  /\ (inject_Z count < snd frame_range - fst frame_range + 2)%Q.
Proof.
  intros Hle. unfold frame_count. cbv zeta. cbn [fst snd].
  pose proof (floor_le_ceiling _ _ Hle) as Hz.
  pose proof (Qfloor_le (fst frame_range)) as H1.
  pose proof (Qlt_floor (fst frame_range)) as H2.
  pose proof (Qceiling_lt (snd frame_range)) as H3.
  pose proof (Qle_ceiling (snd frame_range)) as H4.
  unfold Z.sub in *. rewrite inject_Z_plus, inject_Z_opp in *.
  change (inject_Z 1) with 1%Q in *. change (inject_Z (-1)) with (-1)%Q in *.
  split; [lia|]. split; lra.
Qed.

Lemma frame_count_width_witness :
  0 <= fst (fst (frame_count (22 # 10, 56 # 10)))
  /\ ((56 # 10) - (22 # 10)
      <= inject_Z (fst (fst (frame_count (22 # 10, 56 # 10)))))%Q
  /\ (inject_Z (fst (fst (frame_count (22 # 10, 56 # 10))))
      < (56 # 10) - (22 # 10) + 2)%Q.
Proof.
  refine (frame_count_width (22 # 10, 56 # 10) _). discriminate.
Defined.

(** ** How the operator fails *)

Lemma setup_next_action_cases (w : World) :
  setup_next_action w =
    match nth_error (_actions (self w)) (_action_index (self w)) with
    | None => Raised IndexError
    | Some a =>
        match target (props w) with
        | None => Raised AttributeError
        | Some o =>
            match animation_data o with
            | None => Raised AttributeError
            | Some _ => Ok tt (after_setup a o w)
            end
        end
    end.
Proof.
  destruct (nth_error (_actions (self w)) (_action_index (self w)))
    as [a|] eqn:Ha.
  - destruct (target (props w)) as [o|] eqn:Ho.
    + destruct (animation_data o) as [ad|] eqn:Had.
      * exact (setup_next_action_ok w a o ad Ha Ho Had).
      * unfold setup_next_action, current_action_of, assign_action.
        step_monad. rewrite Ha. step_fields. now rewrite Ho, Had.
    + unfold setup_next_action, current_action_of, assign_action.
      step_monad. rewrite Ha. step_fields. now rewrite Ho.
  - unfold setup_next_action, current_action_of.
    step_monad. now rewrite Ha.
Qed.

(** X3: [setup_next_action] raises IndexError exactly when the action index
    is out of the action list, AttributeError exactly when the action is
    there but the target or its animation data is None, and returns in every
    other case. *)
Theorem setup_next_action_outcome (w : World) :
  match setup_next_action w with
  | Ok _ _ =>
      exists a, nth_error (_actions (self w)) (_action_index (self w)) = Some a
                /\ target_ready w
  | Raised IndexError =>
      (List.length (_actions (self w)) <= _action_index (self w))%nat
  | Raised AttributeError =>
      (_action_index (self w) < List.length (_actions (self w)))%nat
      /\ ~ target_ready w
  end.
Proof.
  rewrite setup_next_action_cases.
  destruct (nth_error (_actions (self w)) (_action_index (self w)))
    as [a|] eqn:Ha.
  - assert (Hlt : (_action_index (self w) < List.length (_actions (self w)))%nat)
      by (apply nth_error_Some; congruence).
    destruct (target (props w)) as [o|] eqn:Ho.
    + destruct (animation_data o) as [ad|] eqn:Had.
      * exists a. split; [reflexivity|]. now exists o, ad.
      * split; [exact Hlt|]. intros (o' & ad' & Ho' & Had'). congruence.
    + split; [exact Hlt|]. intros (o' & ad' & Ho' & Had'). congruence.
  - now apply nth_error_None.
Qed.

(** X4: [invoke] has three outcomes.  It returns CANCELLED exactly on an
    empty action list, RUNNING_MODAL exactly on a non-empty one with a target
    that carries animation data, and raises AttributeError on a non-empty
    list whose target or animation data is None; it never raises
    IndexError. *)
Theorem invoke_outcome (w0 : World) :
  match invoke w0 with
  | Ok CANCELLED _ => data_actions w0 = []
  | Ok RUNNING_MODAL _ => data_actions w0 <> [] /\ target_ready w0
  | Ok _ _ => False
  | Raised AttributeError => data_actions w0 <> [] /\ ~ target_ready w0
  | Raised IndexError => False
  end.
Proof.
  destruct (data_actions w0) as [|a rest] eqn:Hacts.
  - now rewrite (invoke_empty w0 Hacts).
  - unfold invoke. step_monad. step_fields. rewrite Hacts. step_monad.
    rewrite setup_next_action_cases. step_fields.
    unfold target_ready.
    destruct (target (props w0)) as [o|] eqn:Ho.
    + destruct (animation_data o) as [ad|] eqn:Had.
      * unfold event_timer_add, modal_handler_add. step_monad.
        split; [discriminate|]. now exists o, ad.
      * split; [discriminate|].
        intros (o' & ad' & Ho' & Had'). congruence.
    + split; [discriminate|]. intros (o' & ad' & Ho' & Had'). congruence.
Qed.

(** X5: a step never indexes outside a list: [process_step] reads the frame
    queue only below its length and sets up the next action only below the
    action count, so neither it nor [modal], on any event and in any state,
    raises IndexError. *)
Theorem step_never_index_error (w : World) :
  process_step w <> Raised IndexError
  /\ forall event_type, modal event_type w <> Raised IndexError.
Proof.
  assert (Hstep : process_step w <> Raised IndexError).
  { destruct (nth_error (_frame_queue (self w)) (_frame_queue_index (self w)))
      as [f|] eqn:Hf.
    - rewrite (process_step_render w f Hf). discriminate.
    - apply nth_error_None in Hf.
      rewrite (process_step_exhausted w Hf). cbv zeta.
      destruct (_ <? _)%nat eqn:Hlt; [|discriminate].
      apply Nat.ltb_lt in Hlt.
      rewrite setup_next_action_cases. step_fields.
      destruct (nth_error _ _) as [a|] eqn:Ha.
      + destruct (target (props w)) as [o|]; [|discriminate].
        destruct (animation_data o); discriminate.
      + apply nth_error_None in Ha. lia. }
  split; [exact Hstep|].
  intros [| |].
  - rewrite modal_esc. discriminate.
  - rewrite modal_timer.
    destruct (process_step w) as [[] w1|[]]; try discriminate;
      [|contradiction].
    destruct (_ <=? _)%nat; [|discriminate].
    destruct (target (props (redraw w1))) as [o|] eqn:Ho.
    + rewrite (finish_ok _ o Ho). discriminate.
    + unfold finish, event_timer_remove. step_monad. step_fields.
      rewrite redraw_props in *. rewrite Ho. discriminate.
  - discriminate.
Qed.

(** X6: [finish] cannot return without a target.  Whenever it returns, the
    operator's fields and the properties are as before, exactly one payload
    was written, carrying the target's name and the descriptor list as it
    stands, nothing was rendered, the success flag is set and the rendering
    flag cleared, the temp directory is gone, and the operator's timer is not
    live. *)
Theorem finish_outcome (w w' : World) :
  finish w = Ok tt w' ->
  exists o,
    target (props w) = Some o
    /\ self w' = self w
    /\ props w' = props w
    /\ (exists info,
          handoffs (log w') = handoffs (log w) ++ [info]
          /\ info_name info = obj_name o
          /\ animations info = _animation_descs (self w))
    /\ rendered (log w') = rendered (log w)
    /\ success (progressProps w') = true
    /\ rendering (progressProps w') = false
    /\ temp_exists w' = false
    /\ (forall t, _timer (self w) = Some t -> ~ In t (timers (wm w'))).
Proof.
  intros H. destruct (finish_inv _ _ H) as (o & Ho & ->).
  exists o. unfold after_finish. step_fields.
  split; [exact Ho|]. split; [reflexivity|]. split; [reflexivity|].
  split.
  { eexists. rewrite handoffs_app, finish_log_handoffs.
    split; [reflexivity|]. split; reflexivity. }
  split; [now rewrite rendered_app, finish_log_rendered, app_nil_r|].
  split; [reflexivity|]. split; [reflexivity|]. split; [reflexivity|].
  intros t Ht Hin. rewrite Ht in Hin. apply filter_In in Hin.
  destruct Hin as [_ Hneq]. now rewrite Nat.eqb_refl in Hneq.
Qed.

Lemma finish_outcome_witness :
  let w := set_temp_exists true
             (set_self (with_timer (Some 0%nat))
                (set_wm (fun m => mkWm [0%nat] 1 true)
                   (after_setup wave cube (scene_at_setup [wave] true)))) in
  let w' := after_finish
              (mkObject "Cube" (Some (mkAnimData (Some wave)))) w in
  exists o,
    target (props w) = Some o
    /\ self w' = self w
    /\ props w' = props w
    /\ (exists info,
          handoffs (log w') = handoffs (log w) ++ [info]
          /\ info_name info = obj_name o
          /\ animations info = _animation_descs (self w))
    /\ rendered (log w') = rendered (log w)
    /\ success (progressProps w') = true
    /\ rendering (progressProps w') = false
    /\ temp_exists w' = false
    /\ (forall t, _timer (self w) = Some t -> ~ In t (timers (wm w'))).
Proof.
  exact (finish_outcome
           (set_temp_exists true
              (set_self (with_timer (Some 0%nat))
                 (set_wm (fun m => mkWm [0%nat] 1 true)
                    (after_setup wave cube (scene_at_setup [wave] true)))))
           (after_finish
              (mkObject "Cube" (Some (mkAnimData (Some wave))))
              (set_temp_exists true
                 (set_self (with_timer (Some 0%nat))
                    (set_wm (fun m => mkWm [0%nat] 1 true)
                       (after_setup wave cube
                          (scene_at_setup [wave] true))))))
           eq_refl).
Defined.

(** X7: on an empty action list [invoke] returns CANCELLED with the
    rendering flag set and no timer or handler added; with no handler, no
    event reaches the operator, so the flag stays set whatever events
    follow. *)
Theorem empty_list_leaves_rendering_set (w0 : World)
    (events : list EventType) :
  data_actions w0 = [] ->
  modal_handler (wm w0) = false ->
  exists w',
    invoke w0 = Ok CANCELLED w'
    /\ wm w' = wm w0
    /\ rendering (progressProps w') = true
    /\ deliver_all events w' = Ok [] w'.
Proof.
  intros Hacts Hh. rewrite (invoke_empty w0 Hacts).
  eexists. split; [reflexivity|]. split; [reflexivity|].
  split; [reflexivity|].
  apply deliver_all_unregistered. exact Hh.
Qed.

Lemma empty_list_leaves_rendering_set_witness :
  exists w',
    invoke scene_after_success = Ok CANCELLED w'
    /\ wm w' = mkWm [] 1 false
    /\ rendering (progressProps w') = true
    /\ deliver_all [TIMER; ESC; TIMER] w' = Ok [] w'.
Proof.
  exact (empty_list_leaves_rendering_set scene_after_success
           [TIMER; ESC; TIMER] eq_refl eq_refl).
Defined.

(** ** Every way a step can go *)

Lemma invoke_started (w0 : World) (a : Action) (rest : list Action)
    (o : Object3D) (ad : AnimData) :
  data_actions w0 = a :: rest ->
  target (props w0) = Some o ->
  animation_data o = Some ad ->
  invoke w0 = Ok RUNNING_MODAL (after_invoke a o w0).
Proof.
  intros Hacts Ho Had.
  unfold invoke. step_monad. step_fields. rewrite Hacts. step_monad.
  rewrite <- Hacts.
  rewrite (setup_next_action_ok _ a o ad);
    [ | step_fields; rewrite Hacts; reflexivity | exact Ho | exact Had ].
  unfold event_timer_add, modal_handler_add. step_monad.
  reflexivity.
Qed.

Lemma process_step_inv (w w1 : World) :
  process_step w = Ok tt w1 ->
  (exists f,
      nth_error (_frame_queue (self w)) (_frame_queue_index (self w)) = Some f
      /\ w1 = after_render f w)
  \/ ((List.length (_frame_queue (self w)) <= _frame_queue_index (self w))%nat
      /\ ((exists a o ad,
              nth_error (_actions (self w)) (S (_action_index (self w)))
                = Some a
              /\ target (props w) = Some o
              /\ animation_data o = Some ad
              /\ w1 = after_setup a o
                        (set_self
                           (with_action_index (S (_action_index (self w))))
                           w))
          \/ ((List.length (_actions (self w))
               <= S (_action_index (self w)))%nat
              /\ w1 = set_self
                        (with_action_index (S (_action_index (self w))))
                        w))).
Proof.
  destruct (nth_error (_frame_queue (self w)) (_frame_queue_index (self w)))
    as [f|] eqn:Hf.
  - rewrite (process_step_render w f Hf). intros H. inversion H.
    left. now exists f.
  - apply nth_error_None in Hf.
    rewrite (process_step_exhausted w Hf). cbv zeta.
    rewrite Nat.add_1_r. intros H. right. split; [exact Hf|].
    destruct (_ <? _)%nat eqn:Hlt.
    + destruct (setup_next_action_inv _ _ H) as (a & o & ad & Ha & Ho & Had & ->).
      left. now exists a, o, ad.
    + apply Nat.ltb_ge in Hlt. inversion H. right. now split.
Qed.

Lemma modal_timer_inv_world (w w' : World) (r : OpResult) :
  modal TIMER w = Ok r w' ->
  exists w1,
    process_step w = Ok tt w1
    /\ ((r = PASS_THROUGH
         /\ (_action_index (self w1) < List.length (_actions (self w1)))%nat
         /\ w' = redraw w1)
        \/ (r = FINISHED
            /\ (List.length (_actions (self w1)) <= _action_index (self w1))%nat
            /\ exists o, target (props w1) = Some o
                         /\ w' = after_finish o (redraw w1))).
Proof.
  rewrite modal_timer.
  destruct (process_step w) as [[] w1|e]; [|discriminate].
  intros H. exists w1. split; [reflexivity|].
  destruct (_ <=? _)%nat eqn:Hend.
  - apply Nat.leb_le in Hend.
    destruct (finish (redraw w1)) as [[] w2|e] eqn:Hf; [|discriminate].
    inversion H; subst.
    destruct (finish_inv _ _ Hf) as (o & Ho & ->).
    right. split; [reflexivity|]. split; [exact Hend|].
    exists o. rewrite redraw_props in Ho. now split.
  - apply Nat.leb_gt in Hend. inversion H; subst. left. now split.
Qed.

Lemma redraw_frame_current w : frame_current (redraw w) = frame_current w.
Proof. unfold redraw. now destruct (area w). Qed.

(** ** What the display shows *)

(** [Display] reads the operator's fields, the properties, the scene frame
    and five of the progress fields; a world that agrees on them has it as
    well. *)
Lemma display_ext (w w' : World) :
  self w' = self w ->
  props w' = props w ->
  frame_current w' = frame_current w ->
  actionTotal (progressProps w') = actionTotal (progressProps w) ->
  actionIndex (progressProps w') = actionIndex (progressProps w) ->
  actionName (progressProps w') = actionName (progressProps w) ->
  tileTotal (progressProps w') = tileTotal (progressProps w) ->
  tileIndex (progressProps w') = tileIndex (progressProps w) ->
  Display w -> Display w'.
Proof.
  intros Hs Hp Hf H1 H2 H3 H4 H5 [].
  constructor; rewrite ?Hs, ?Hp, ?Hf, ?H1, ?H2, ?H3, ?H4, ?H5; assumption.
Qed.

Lemma display_redraw (w : World) : Display w -> Display (redraw w).
Proof.
  apply display_ext;
    rewrite ?redraw_self, ?redraw_props, ?redraw_frame_current,
      ?redraw_progress; reflexivity.
Qed.

Lemma display_render (w : World) (f : Z) :
  nth_error (_frame_queue (self w)) (_frame_queue_index (self w)) = Some f ->
  Display w -> Display (after_render f w).
Proof.
  intros Hf [].
  assert (Hlt : (_frame_queue_index (self w)
                 < List.length (_frame_queue (self w)))%nat)
    by (apply nth_error_Some; congruence).
  constructor; unfold after_render; step_fields.
  - lia.
  - assumption.
  - assumption.
  - intros k Hk.
    replace k with (_frame_queue_index (self w)) by lia. now split.
Qed.

Lemma display_setup (w : World) (a : Action) (o : Object3D) (i : nat) :
  nth_error (_actions (self w)) i = Some a ->
  Display w ->
  Display (after_setup a o (set_self (with_action_index i) w)).
Proof.
  intros Ha []. constructor; unfold after_setup; step_fields.
  - lia.
  - assumption.
  - intros b Hb. assert (b = a) by congruence. subst b.
    repeat split. eexists. split; reflexivity.
  - intros k Hk. discriminate.
Qed.

Lemma display_last (w : World) (i : nat) :
  (List.length (_actions (self w)) <= i)%nat ->
  Display w -> Display (set_self (with_action_index i) w).
Proof.
  intros Hi []. constructor; step_fields; try assumption.
  intros a Ha. apply nth_error_None in Hi. congruence.
Qed.

Lemma display_step (w w1 : World) :
  process_step w = Ok tt w1 -> Display w -> Display w1.
Proof.
  intros H Hd.
  destruct (process_step_inv _ _ H)
    as [(f & Hf & ->)
       | (_ & [(a & o & ad & Ha & _ & _ & ->) | (Hi & ->)])].
  - now apply display_render.
  - now apply display_setup.
  - now apply display_last.
Qed.

Lemma display_modal (ev : EventType) (w w' : World) (r : OpResult) :
  modal ev w = Ok r w' -> Display w -> Display w'.
Proof.
  destruct ev; intros H Hd.
  - rewrite modal_esc in H. inversion H; subst.
    revert Hd. apply display_ext; reflexivity.
  - destruct (modal_timer_inv_world _ _ _ H)
      as (w1 & Hp & [(_ & _ & ->) | (_ & _ & o & _ & ->)]);
      pose proof (display_redraw _ (display_step _ _ Hp Hd)) as Hd1.
    + exact Hd1.
    + revert Hd1. apply display_ext; reflexivity.
  - inversion H; subst. exact Hd.
Qed.

Lemma display_deliver (ev : EventType) (w w' : World) r :
  deliver ev w = Ok r w' -> Display w -> Display w'.
Proof.
  intros H Hd.
  destruct (modal_handler (wm w)) eqn:Hh.
  - rewrite (deliver_registered ev w Hh) in H.
    destruct (modal ev w) as [x w1|e] eqn:Hm; [|discriminate].
    pose proof (display_modal _ _ _ _ Hm Hd) as Hd1.
    destruct x; inversion H; subst; try exact Hd1;
      revert Hd1; apply display_ext; reflexivity.
  - rewrite (deliver_unregistered ev w Hh) in H. inversion H; subst.
    exact Hd.
Qed.

Lemma display_deliver_all (events : list EventType) :
  forall (w w' : World) rs,
    deliver_all events w = Ok rs w' -> Display w -> Display w'.
Proof.
  induction events as [|ev events IH]; intros w w' rs H Hd.
  - inversion H; subst. exact Hd.
  - cbn [deliver_all] in H. step_monad in H.
    destruct (deliver ev w) as [r w1|e] eqn:Hdel; [|discriminate].
    destruct (deliver_all events w1) as [rs1 w2|e] eqn:Hall; [|discriminate].
    inversion H; subst.
    exact (IH _ _ _ Hall (display_deliver _ _ _ _ Hdel Hd)).
Qed.

Lemma display_invoke (w0 : World) (a : Action) (o : Object3D) :
  nth_error (data_actions w0) 0 = Some a ->
  Display (after_invoke a o w0).
Proof.
  intros Ha. constructor; unfold after_invoke, after_setup; step_fields.
  - lia.
  - reflexivity.
  - intros b Hb. assert (b = a) by congruence. subst b.
    repeat split. eexists. split; reflexivity.
  - intros k Hk. discriminate.
Qed.

(** ** The timer *)

Lemma step_keeps_timer (w w1 : World) :
  process_step w = Ok tt w1 ->
  _timer (self w1) = _timer (self w) /\ wm w1 = wm w.
Proof.
  intros H.
  destruct (process_step_inv _ _ H)
    as [(f & _ & ->)
       | (_ & [(a & o & ad & _ & _ & _ & ->) | (_ & ->)])];
    split; reflexivity.
Qed.

Lemma timer_removed (t : nat) (l : list nat) :
  ~ In t (filter (fun h => negb (Nat.eqb h t)) l).
Proof.
  intros Hin. apply filter_In in Hin. destruct Hin as [_ Hneq].
  now rewrite Nat.eqb_refl in Hneq.
Qed.

Lemma timer_deliver (ev : EventType) (w w' : World) r :
  deliver ev w = Ok r w' -> TimerHeld w -> TimerHeld w'.
Proof.
  intros H (t & Ht & Hlive).
  destruct (modal_handler (wm w)) eqn:Hh.
  - rewrite (deliver_registered ev w Hh) in H. destruct ev.
    + rewrite modal_esc in H. inversion H; subst.
      exists t. step_fields. split; [exact Ht|]. rewrite Ht.
      split; [intros Hin; now apply timer_removed in Hin|discriminate].
    + destruct (modal TIMER w) as [x w2|e] eqn:Hm; [|discriminate].
      destruct (modal_timer_inv_world _ _ _ Hm)
        as (w1 & Hp & [(-> & _ & ->) | (-> & _ & o & _ & ->)]);
        destruct (step_keeps_timer _ _ Hp) as [Ht1 Hwm1];
        inversion H; subst.
      * exists t. rewrite redraw_self, redraw_wm, Ht1, Hwm1, Hh.
        split; [exact Ht|exact Hlive].
      * exists t. unfold after_finish. step_fields.
        rewrite redraw_self, Ht1, Ht.
        split; [reflexivity|].
        split; [intros Hin; now apply timer_removed in Hin|discriminate].
    + cbn [modal] in H. unfold ret in H. inversion H; subst.
      exists t. rewrite Hh. split; [exact Ht|exact Hlive].
  - rewrite (deliver_unregistered ev w Hh) in H. inversion H; subst.
    exists t. rewrite Hh. split; [exact Ht|exact Hlive].
Qed.

Lemma timer_deliver_all (events : list EventType) :
  forall (w w' : World) rs,
    deliver_all events w = Ok rs w' -> TimerHeld w -> TimerHeld w'.
Proof.
  induction events as [|ev events IH]; intros w w' rs H Ht.
  - inversion H; subst. exact Ht.
  - cbn [deliver_all] in H. step_monad in H.
    destruct (deliver ev w) as [r w1|e] eqn:Hdel; [|discriminate].
    destruct (deliver_all events w1) as [rs1 w2|e] eqn:Hall; [|discriminate].
    inversion H; subst.
    exact (IH _ _ _ Hall (timer_deliver _ _ _ _ Hdel Ht)).
Qed.

Lemma timer_invoke (w0 : World) (a : Action) (o : Object3D) :
  TimerHeld (after_invoke a o w0).
Proof.
  exists (next_timer (wm w0)). unfold after_invoke, after_setup. step_fields.
  split; [reflexivity|]. split; [reflexivity|].
  intros _. apply in_or_app. right. now left.
Qed.

(** ** Runs, with what is shown of them *)

Lemma run_shown (w0 : World) (events : list EventType) :
  data_actions w0 <> [] ->
  target_ready w0 ->
  exists w1 rs w,
    invoke w0 = Ok RUNNING_MODAL w1
    /\ deliver_all events w1 = Ok rs w
    /\ Reach (data_actions w0) (onlyRenderMarkedFrames (props w0))
         (rendered (log w0)) (handoffs (log w0)) w
    /\ Display w
    /\ TimerHeld w.
Proof.
  intros Hne Hready.
  destruct (run_events w0 events Hne Hready) as (w1 & rs & w & Hi & Hd & Hr).
  exists w1, rs, w. split; [exact Hi|]. split; [exact Hd|].
  split; [exact Hr|].
  destruct Hready as (o & ad & Ho & Had).
  destruct (data_actions w0) as [|a rest] eqn:Hacts; [congruence|].
  rewrite (invoke_started w0 a rest o ad Hacts Ho Had) in Hi.
  inversion Hi; subst w1.
  split.
  - apply (display_deliver_all events _ _ _ Hd).
    apply display_invoke. now rewrite Hacts.
  - apply (timer_deliver_all events _ _ _ Hd). apply timer_invoke.
Qed.

(** X8: in every world of a run, finished and cancelled ones included, the
    position in the frame queue is at most the length of the queue. *)
Theorem run_queue_position_bounded (w0 : World) (events : list EventType) :
  data_actions w0 <> [] ->
  target_ready w0 ->
  exists w1 rs w,
    invoke w0 = Ok RUNNING_MODAL w1
    /\ deliver_all events w1 = Ok rs w
    /\ (_frame_queue_index (self w)
        <= List.length (_frame_queue (self w)))%nat.
Proof.
  intros Hne Hready.
  destruct (run_shown w0 events Hne Hready)
    as (w1 & rs & w & Hi & Hd & _ & [] & _).
  now exists w1, rs, w.
Qed.

Lemma run_queue_position_bounded_witness :
  exists w1 rs w,
    invoke (scene [walk; wave] true) = Ok RUNNING_MODAL w1
    /\ deliver_all (repeat TIMER 20) w1 = Ok rs w
    /\ (_frame_queue_index (self w)
        <= List.length (_frame_queue (self w)))%nat.
Proof.
  refine (run_queue_position_bounded (scene [walk; wave] true)
            (repeat TIMER 20) _ _).
  - discriminate.
  - exists cube, (mkAnimData None). split; reflexivity.
Defined.

(** X9: while an action is current, running or cancelled, the progress
    fields show it: [actionIndex] is the action index, [actionName] the name
    of that action, [tileTotal] the length of its frame queue, which is the
    queue of that action, and [actionTotal] the number of actions. *)
Theorem run_progress_shows_current_action (w0 : World)
    (events : list EventType) :
  data_actions w0 <> [] ->
  target_ready w0 ->
  exists w1 rs w,
    invoke w0 = Ok RUNNING_MODAL w1
    /\ deliver_all events w1 = Ok rs w
    /\ actionTotal (progressProps w) = List.length (data_actions w0)
    /\ forall a,
         nth_error (data_actions w0) (_action_index (self w)) = Some a ->
         actionIndex (progressProps w) = _action_index (self w)
         /\ actionName (progressProps w) = name a
         /\ tileTotal (progressProps w)
            = List.length (_frame_queue (self w))
         /\ _frame_queue (self w)
            = queue_of (onlyRenderMarkedFrames (props w0)) a.
Proof.
  intros Hne Hready.
  destruct (run_shown w0 events Hne Hready)
    as (w1 & rs & w & Hi & Hd & Hr & [] & _).
  exists w1, rs, w. split; [exact Hi|]. split; [exact Hd|].
  pose proof (reach_actions _ _ _ _ w Hr) as Hacts.
  split; [now rewrite <- Hacts|].
  intros a Ha. rewrite <- Hacts in Ha.
  destruct (disp_current0 a Ha) as (H1 & H2 & H3 & _).
  split; [exact H1|]. split; [exact H2|]. split; [exact H3|].
  rewrite Hacts in Ha.
  destruct Hr as [(i & p & [[] _]) | [(i & p & [[] _]) | [[] _]]].
  - destruct sch_current0 as (b & Hb & Hq). rewrite sch_index0 in Ha.
    congruence.
  - destruct sch_current0 as (b & Hb & Hq). rewrite sch_index0 in Ha.
    congruence.
  - rewrite done_index0 in Ha.
    assert (nth_error (data_actions w0) (List.length (data_actions w0)) = None)
      by (apply nth_error_None; lia).
    congruence.
Qed.

Lemma run_progress_shows_current_action_witness :
  exists w1 rs w,
    invoke (scene [walk; wave] true) = Ok RUNNING_MODAL w1
    /\ deliver_all (repeat TIMER 7) w1 = Ok rs w
    /\ actionTotal (progressProps w) = 2%nat
    /\ forall a,
         nth_error [walk; wave] (_action_index (self w)) = Some a ->
         actionIndex (progressProps w) = _action_index (self w)
         /\ actionName (progressProps w) = name a
         /\ tileTotal (progressProps w)
            = List.length (_frame_queue (self w))
         /\ _frame_queue (self w) = queue_of true a.
Proof.
  refine (run_progress_shows_current_action (scene [walk; wave] true)
            (repeat TIMER 7) _ _).
  - discriminate.
  - exists cube, (mkAnimData None). split; reflexivity.
Defined.

(** X10: while an action is current, it is the action assigned to the
    target's animation data: every frame is rendered with its own action on
    the object. *)
Theorem run_target_carries_current_action (w0 : World)
    (events : list EventType) :
  data_actions w0 <> [] ->
  target_ready w0 ->
  exists w1 rs w,
    invoke w0 = Ok RUNNING_MODAL w1
    /\ deliver_all events w1 = Ok rs w
    /\ forall a,
         nth_error (data_actions w0) (_action_index (self w)) = Some a ->
         exists o,
           target (props w) = Some o
           /\ animation_data o = Some (mkAnimData (Some a)).
Proof.
  intros Hne Hready.
  destruct (run_shown w0 events Hne Hready)
    as (w1 & rs & w & Hi & Hd & Hr & [] & _).
  exists w1, rs, w. split; [exact Hi|]. split; [exact Hd|].
  intros a Ha. rewrite <- (reach_actions _ _ _ _ w Hr) in Ha.
  now destruct (disp_current0 a Ha) as (_ & _ & _ & Ho).
Qed.

Lemma run_target_carries_current_action_witness :
  exists w1 rs w,
    invoke (scene [walk; wave] true) = Ok RUNNING_MODAL w1
    /\ deliver_all (repeat TIMER 7) w1 = Ok rs w
    /\ forall a,
         nth_error [walk; wave] (_action_index (self w)) = Some a ->
         exists o,
           target (props w) = Some o
           /\ animation_data o = Some (mkAnimData (Some a)).
Proof.
  refine (run_target_carries_current_action (scene [walk; wave] true)
            (repeat TIMER 7) _ _).
  - discriminate.
  - exists cube, (mkAnimData None). split; reflexivity.
Defined.

(** X11: once a frame of the current queue has been rendered, the progress
    field [tileIndex] and the scene's current frame are the frame number
    rendered last, the queue entry just before the position. *)
Theorem run_tile_index_is_last_rendered (w0 : World)
    (events : list EventType) :
  data_actions w0 <> [] ->
  target_ready w0 ->
  exists w1 rs w,
    invoke w0 = Ok RUNNING_MODAL w1
    /\ deliver_all events w1 = Ok rs w
    /\ forall k,
         _frame_queue_index (self w) = S k ->
         nth_error (_frame_queue (self w)) k
           = Some (tileIndex (progressProps w))
         /\ frame_current w = tileIndex (progressProps w).
Proof.
  intros Hne Hready.
  destruct (run_shown w0 events Hne Hready)
    as (w1 & rs & w & Hi & Hd & _ & [] & _).
  now exists w1, rs, w.
Qed.

Lemma run_tile_index_is_last_rendered_witness :
  exists w1 rs w,
    invoke (scene [walk; wave] true) = Ok RUNNING_MODAL w1
    /\ deliver_all (repeat TIMER 8) w1 = Ok rs w
    /\ forall k,
         _frame_queue_index (self w) = S k ->
         nth_error (_frame_queue (self w)) k
           = Some (tileIndex (progressProps w))
         /\ frame_current w = tileIndex (progressProps w).
Proof.
  refine (run_tile_index_is_last_rendered (scene [walk; wave] true)
            (repeat TIMER 8) _ _).
  - discriminate.
  - exists cube, (mkAnimData None). split; reflexivity.
Defined.

(** After eight TIMER events on Walk and Wave: two of the three markers of
    Wave are rendered, the last one frame 3. *)
Example display_mid_run :
  exists w1 w,
    invoke (scene [walk; wave] true) = Ok RUNNING_MODAL w1
    /\ deliver_all (repeat TIMER 8) w1 = Ok (repeat PASS_THROUGH 8) w
    /\ _frame_queue_index (self w) = 2%nat
    /\ progressProps w = mkProgress true false 2 "Wave" 1 3 3
    /\ frame_current w = 3.
Proof.
  do 2 eexists. split; [vm_compute; reflexivity|].
  split; [vm_compute; reflexivity|]. repeat split.
Qed.

(** X12: the operator holds the timer [invoke] added, and in every world of
    a run that timer is live exactly while the operator is a modal handler:
    [finish] and [cancel] both release it. *)
Theorem run_timer_live_while_running (w0 : World)
    (events : list EventType) :
  data_actions w0 <> [] ->
  target_ready w0 ->
  exists w1 rs w t,
    invoke w0 = Ok RUNNING_MODAL w1
    /\ deliver_all events w1 = Ok rs w
    /\ _timer (self w) = Some t
    /\ (In t (timers (wm w)) <-> modal_handler (wm w) = true).
Proof.
  intros Hne Hready.
  destruct (run_shown w0 events Hne Hready)
    as (w1 & rs & w & Hi & Hd & _ & _ & (t & Ht & Hlive)).
  now exists w1, rs, w, t.
Qed.

Lemma run_timer_live_while_running_witness :
  exists w1 rs w t,
    invoke (scene [action_A; action_B] false) = Ok RUNNING_MODAL w1
    /\ deliver_all [TIMER; TIMER; ESC; TIMER] w1 = Ok rs w
    /\ _timer (self w) = Some t
    /\ (In t (timers (wm w)) <-> modal_handler (wm w) = true).
Proof.
  refine (run_timer_live_while_running (scene [action_A; action_B] false)
            [TIMER; TIMER; ESC; TIMER] _ _).
  - discriminate.
  - exists cube, (mkAnimData None). split; reflexivity.
Defined.

(** ** What a run renders and records *)

Lemma flat_map_split {A B} (f : A -> list B) (l : list A) (i : nat) (a : A) :
  nth_error l i = Some a ->
  flat_map f l
  = flat_map f (firstn i l) ++ f a ++ flat_map f (skipn (S i) l).
Proof.
  revert i. induction l as [|x l IH]; intros [|i] H; cbn in *;
    try discriminate.
  - now inversion H.
  - rewrite (IH i H). now rewrite <- app_assoc.
Qed.

(** X13: nothing is rendered out of turn: in every world of a run the frames
    rendered since [invoke] are an initial part of the frames of the whole
    job, the frame queues of the actions one after the other. *)
Theorem run_renders_prefix (w0 : World) (events : list EventType) :
  data_actions w0 <> [] ->
  target_ready w0 ->
  exists w1 rs w to_come,
    invoke w0 = Ok RUNNING_MODAL w1
    /\ deliver_all events w1 = Ok rs w
    /\ rendered (log w) ++ to_come
       = rendered (log w0)
         ++ flat_map (queue_of (onlyRenderMarkedFrames (props w0)))
              (data_actions w0).
Proof.
  intros Hne Hready.
  destruct (run_events w0 events Hne Hready) as (w1 & rs & w & Hi & Hd & Hr).
  exists w1, rs, w.
  assert (Hsched : forall i p,
    Sched (data_actions w0) (onlyRenderMarkedFrames (props w0))
      (rendered (log w0)) (handoffs (log w0)) i p w ->
    exists to_come,
      rendered (log w) ++ to_come
      = rendered (log w0)
        ++ flat_map (queue_of (onlyRenderMarkedFrames (props w0)))
             (data_actions w0)).
  { intros i p []. destruct sch_current0 as (a & Ha & Hq).
    exists (skipn p (_frame_queue (self w))
            ++ flat_map (queue_of (onlyRenderMarkedFrames (props w0)))
                 (skipn (S i) (data_actions w0))).
    rewrite sch_rendered0, (flat_map_split _ _ _ _ Ha), <- Hq.
    rewrite <- !app_assoc. do 2 f_equal.
    now rewrite app_assoc, firstn_skipn. }
  destruct Hr as [(i & p & [Hs _]) | [(i & p & [Hs _]) | [[] _]]].
  - destruct (Hsched i p Hs) as (tc & Htc). now exists tc.
  - destruct (Hsched i p Hs) as (tc & Htc). now exists tc.
  - exists []. now rewrite app_nil_r.
Qed.

Lemma run_renders_prefix_witness :
  exists w1 rs w to_come,
    invoke (scene [walk; wave] true) = Ok RUNNING_MODAL w1
    /\ deliver_all [TIMER; TIMER; ESC; TIMER] w1 = Ok rs w
    /\ rendered (log w) ++ to_come
       = [] ++ flat_map (queue_of true) [walk; wave].
Proof.
  refine (run_renders_prefix (scene [walk; wave] true)
            [TIMER; TIMER; ESC; TIMER] _ _).
  - discriminate.
  - exists cube, (mkAnimData None). split; reflexivity.
Defined.

Lemma descs_from_nth (l : list Action) :
  forall (base : Z) (k : nat) (d : AnimationDesc),
    nth_error (descs_from base l) k = Some d ->
    exists a,
      nth_error l k = Some a
      /\ desc_name d = name a
      /\ desc_end d = base + sum_Z (map interval_count (firstn (S k) l)).
Proof.
  induction l as [|x l IH]; intros base [|k] d H; cbn [descs_from] in H;
    try (destruct k; discriminate); cbn [nth_error] in H.
  - discriminate.
  - inversion H; subst. exists x. unfold sum_Z. cbn. repeat split. lia.
  - destruct (IH _ _ _ H) as (a & Ha & Hn & He).
    exists a. split; [exact Ha|]. split; [exact Hn|].
    rewrite He. change (firstn (S (S k)) (x :: l))
      with (x :: firstn (S k) l).
    unfold sum_Z. cbn [map fold_right]. lia.
Qed.

Lemma nth_error_firstn_some {A} (l : list A) (n k : nat) (a : A) :
  nth_error (firstn n l) k = Some a ->
  nth_error l k = Some a /\ (k < n)%nat.
Proof.
  revert n k. induction l as [|x l IH]; intros [|n] [|k] H; cbn in *;
    try discriminate.
  - split; [exact H|lia].
  - destruct (IH _ _ H). split; [assumption|lia].
Qed.

(** X14: in every world of a run the k-th descriptor is that of the k-th
    action: it carries the action's name, and its end is the sum of the
    interval-derived counts of actions 0 to k. *)
Theorem run_descriptors_follow_actions (w0 : World)
    (events : list EventType) :
  data_actions w0 <> [] ->
  target_ready w0 ->
  exists w1 rs w,
    invoke w0 = Ok RUNNING_MODAL w1
    /\ deliver_all events w1 = Ok rs w
    /\ forall k d,
         nth_error (_animation_descs (self w)) k = Some d ->
         exists a,
           nth_error (data_actions w0) k = Some a
           /\ desc_name d = name a
           /\ desc_end d = cumulative (data_actions w0) (S k).
Proof.
  intros Hne Hready.
  destruct (run_events w0 events Hne Hready) as (w1 & rs & w & Hi & Hd & Hr).
  exists w1, rs, w. split; [exact Hi|]. split; [exact Hd|].
  intros k d Hk. rewrite (reach_descs _ _ _ _ w Hr) in Hk.
  destruct (descs_from_nth _ _ _ _ Hk) as (a & Ha & Hn & He).
  destruct (nth_error_firstn_some _ _ _ _ Ha) as [Ha' Hlt].
  exists a. split; [exact Ha'|]. split; [exact Hn|].
  rewrite He, firstn_firstn, Nat.min_l by lia. reflexivity.
Qed.

Lemma run_descriptors_follow_actions_witness :
  exists w1 rs w,
    invoke (scene [walk; wave] true) = Ok RUNNING_MODAL w1
    /\ deliver_all (repeat TIMER 8) w1 = Ok rs w
    /\ forall k d,
         nth_error (_animation_descs (self w)) k = Some d ->
         exists a,
           nth_error [walk; wave] k = Some a
           /\ desc_name d = name a
           /\ desc_end d = cumulative [walk; wave] (S k).
Proof.
  refine (run_descriptors_follow_actions (scene [walk; wave] true)
            (repeat TIMER 8) _ _).
  - discriminate.
  - exists cube, (mkAnimData None). split; reflexivity.
Defined.

Lemma interval_count_nonneg (a : Action) :
  well_formed a -> 0 <= interval_count a.
Proof.
  intros H. unfold interval_count, frame_count. cbn [fst].
  pose proof (floor_le_ceiling _ _ H). lia.
Qed.

Lemma cumulative_mono (acts : list Action) (j k : nat) :
  Forall well_formed acts -> (j <= k)%nat ->
  cumulative acts j <= cumulative acts k.
Proof.
  intros Hwf. revert j k. unfold cumulative.
  induction Hwf as [|a l Ha Hl IH]; intros j k Hjk.
  - now rewrite !firstn_nil.
  - destruct j as [|j].
    + cbn [firstn map]. unfold sum_Z at 1. cbn [fold_right].
      clear Hjk. revert k. 
      assert (Hnn : forall m, 0 <= sum_Z (map interval_count (firstn m l))).
      { intros m. specialize (IH 0%nat m (Nat.le_0_l m)).
        cbn [firstn map] in IH. unfold sum_Z at 1 in IH. exact IH. }
      intros [|k]; [unfold sum_Z; cbn; lia|].
      cbn [firstn map]. unfold sum_Z. cbn [fold_right].
      pose proof (interval_count_nonneg a Ha). specialize (Hnn k).
      unfold sum_Z in Hnn. lia.
    + destruct k as [|k]; [lia|].
      cbn [firstn map]. unfold sum_Z. cbn [fold_right].
      specialize (IH j k). unfold sum_Z in IH. lia.
Qed.

(** X15: when every interval has start <= end, the ends of the descriptors
    never decrease along the list, and none is negative. *)
Theorem run_descriptor_ends_increase (w0 : World)
    (events : list EventType) :
  data_actions w0 <> [] ->
  target_ready w0 ->
  Forall well_formed (data_actions w0) ->
  exists w1 rs w,
    invoke w0 = Ok RUNNING_MODAL w1
    /\ deliver_all events w1 = Ok rs w
    /\ forall j k dj dk,
         (j <= k)%nat ->
         nth_error (_animation_descs (self w)) j = Some dj ->
         nth_error (_animation_descs (self w)) k = Some dk ->
         0 <= desc_end dj <= desc_end dk.
Proof.
  intros Hne Hready Hwf.
  destruct (run_events w0 events Hne Hready) as (w1 & rs & w & Hi & Hd & Hr).
  exists w1, rs, w. split; [exact Hi|]. split; [exact Hd|].
  intros j k dj dk Hjk Hj Hk. rewrite (reach_descs _ _ _ _ w Hr) in Hj, Hk.
  destruct (descs_from_nth _ _ _ _ Hj) as (a & Ha & _ & He).
  destruct (descs_from_nth _ _ _ _ Hk) as (b & Hb & _ & He').
  destruct (nth_error_firstn_some _ _ _ _ Ha) as [_ Hlt].
  destruct (nth_error_firstn_some _ _ _ _ Hb) as [_ Hlt'].
  rewrite firstn_firstn, Nat.min_l in He, He' by lia.
  rewrite He, He', !Z.add_0_l.
  pose proof (cumulative_mono (data_actions w0) 0 (S j) Hwf (Nat.le_0_l _)).
  pose proof (cumulative_mono (data_actions w0) (S j) (S k) Hwf).
  unfold cumulative in *. cbn [firstn map] in H. unfold sum_Z at 1 in H.
  cbn [fold_right] in H. split; [exact H|]. apply H0. lia.
Qed.

Lemma run_descriptor_ends_increase_witness :
  exists w1 rs w,
    invoke (scene [walk; wave] true) = Ok RUNNING_MODAL w1
    /\ deliver_all (repeat TIMER 8) w1 = Ok rs w
    /\ forall j k dj dk,
         (j <= k)%nat ->
         nth_error (_animation_descs (self w)) j = Some dj ->
         nth_error (_animation_descs (self w)) k = Some dk ->
         0 <= desc_end dj <= desc_end dk.
Proof.
  refine (run_descriptor_ends_increase (scene [walk; wave] true)
            (repeat TIMER 8) _ _ _).
  - discriminate.
  - exists cube, (mkAnimData None). split; reflexivity.
  - repeat constructor; discriminate.
Defined.

(** ** The action index and the flags *)

Lemma index_step (w w1 : World) :
  process_step w = Ok tt w1 ->
  (_action_index (self w) <= _action_index (self w1)
   <= S (_action_index (self w)))%nat.
Proof.
  intros H.
  destruct (process_step_inv _ _ H)
    as [(f & _ & ->)
       | (_ & [(a & o & ad & _ & _ & _ & ->) | (_ & ->)])];
    unfold after_render, after_setup; step_fields; lia.
Qed.

Lemma index_modal (ev : EventType) (w w' : World) (r : OpResult) :
  modal ev w = Ok r w' ->
  (_action_index (self w) <= _action_index (self w')
   <= S (_action_index (self w)))%nat.
Proof.
  destruct ev; intros H.
  - rewrite modal_esc in H. inversion H; subst. step_fields. lia.
  - destruct (modal_timer_inv _ _ _ H) as (w1 & Hp & Hself & _).
    rewrite Hself. now apply index_step.
  - inversion H; subst. lia.
Qed.

Lemma index_deliver (ev : EventType) (w w' : World) r :
  deliver ev w = Ok r w' ->
  (_action_index (self w) <= _action_index (self w')
   <= S (_action_index (self w)))%nat.
Proof.
  intros H. destruct (modal_handler (wm w)) eqn:Hh.
  - rewrite (deliver_registered ev w Hh) in H.
    destruct (modal ev w) as [x w1|e] eqn:Hm; [|discriminate].
    pose proof (index_modal _ _ _ _ Hm).
    destruct x; inversion H; subst; step_fields; assumption.
  - rewrite (deliver_unregistered ev w Hh) in H. inversion H; subst. lia.
Qed.

Lemma index_deliver_all (events : list EventType) :
  forall (w w' : World) rs,
    deliver_all events w = Ok rs w' ->
    (_action_index (self w) <= _action_index (self w')
     <= _action_index (self w) + List.length events)%nat.
Proof.
  induction events as [|ev events IH]; intros w w' rs H.
  - inversion H; subst. cbn [List.length]. lia.
  - cbn [deliver_all] in H. step_monad in H.
    destruct (deliver ev w) as [r w1|e] eqn:Hdel; [|discriminate].
    destruct (deliver_all events w1) as [rs1 w2|e] eqn:Hall; [|discriminate].
    inversion H; subst.
    pose proof (index_deliver _ _ _ _ Hdel).
    pose proof (IH _ _ _ Hall). cbn [List.length]. lia.
Qed.

(** X16: along a run the action index never decreases, it grows by at most
    one per event, and it never exceeds the number of actions; the action
    list the operator works on stays the one read by [invoke]. *)
Theorem run_action_index_monotone (w0 : World)
    (events more : list EventType) :
  data_actions w0 <> [] ->
  target_ready w0 ->
  exists w1 rs w rs' w',
    invoke w0 = Ok RUNNING_MODAL w1
    /\ deliver_all events w1 = Ok rs w
    /\ deliver_all more w = Ok rs' w'
    /\ (_action_index (self w) <= _action_index (self w'))%nat
    /\ (_action_index (self w')
        <= _action_index (self w) + List.length more)%nat
    /\ (_action_index (self w') <= List.length (data_actions w0))%nat
    /\ _actions (self w') = data_actions w0.
Proof.
  intros Hne Hready.
  destruct (run_events w0 events Hne Hready) as (w1 & rs & w & Hi & Hd & Hr).
  destruct (deliver_all_reach _ _ _ _ more w Hr) as (rs' & w' & Hd' & Hr').
  exists w1, rs, w, rs', w'.
  split; [exact Hi|]. split; [exact Hd|]. split; [exact Hd'|].
  pose proof (index_deliver_all _ _ _ _ Hd') as [Hlo Hhi].
  split; [exact Hlo|]. split; [exact Hhi|].
  split; [|exact (reach_actions _ _ _ _ w' Hr')].
  destruct Hr' as [(i & p & [[] _]) | [(i & p & [[] _]) | [[] _]]].
  - destruct sch_current0 as (a & Ha & _).
    assert (i < List.length (data_actions w0))%nat
      by (apply nth_error_Some; congruence).
    lia.
  - destruct sch_current0 as (a & Ha & _).
    assert (i < List.length (data_actions w0))%nat
      by (apply nth_error_Some; congruence).
    lia.
  - lia.
Qed.

Lemma run_action_index_monotone_witness :
  exists w1 rs w rs' w',
    invoke (scene [walk; wave] true) = Ok RUNNING_MODAL w1
    /\ deliver_all (repeat TIMER 5) w1 = Ok rs w
    /\ deliver_all (repeat TIMER 9) w = Ok rs' w'
    /\ (_action_index (self w) <= _action_index (self w'))%nat
    /\ (_action_index (self w') <= _action_index (self w) + 9)%nat
    /\ (_action_index (self w') <= 2)%nat
    /\ _actions (self w') = [walk; wave].
Proof.
  refine (run_action_index_monotone (scene [walk; wave] true)
            (repeat TIMER 5) (repeat TIMER 9) _ _).
  - discriminate.
  - exists cube, (mkAnimData None). split; reflexivity.
Defined.

(** X17: in every world of a run started on a non-empty list, the rendering
    flag is set exactly while the operator is a modal handler, and the
    success flag is set exactly when the action index has reached the number
    of actions. *)
Theorem run_flags_track_phase (w0 : World) (events : list EventType) :
  data_actions w0 <> [] ->
  target_ready w0 ->
  exists w1 rs w,
    invoke w0 = Ok RUNNING_MODAL w1
    /\ deliver_all events w1 = Ok rs w
    /\ rendering (progressProps w) = modal_handler (wm w)
    /\ success (progressProps w)
       = (List.length (data_actions w0) <=? _action_index (self w))%nat.
Proof.
  intros Hne Hready.
  destruct (run_events w0 events Hne Hready) as (w1 & rs & w & Hi & Hd & Hr).
  exists w1, rs, w. split; [exact Hi|]. split; [exact Hd|].
  pose proof (reach_handoffs _ _ _ _ w Hr) as Hh.
  split.
  - destruct Hr as [(i & p & (_ & H1 & H2))
                   | [(i & p & (_ & H1 & H2)) | [[] H1]]]; congruence.
  - destruct (_ <=? _)%nat.
    + now destruct Hh as (_ & _ & Hs).
    + now destruct Hh as (_ & Hs).
Qed.

Lemma run_flags_track_phase_witness :
  exists w1 rs w,
    invoke (scene [action_A; action_B] false) = Ok RUNNING_MODAL w1
    /\ deliver_all [TIMER; TIMER; ESC; TIMER] w1 = Ok rs w
    /\ rendering (progressProps w) = modal_handler (wm w)
    /\ success (progressProps w)
       = (2 <=? _action_index (self w))%nat.
Proof.
  refine (run_flags_track_phase (scene [action_A; action_B] false)
            [TIMER; TIMER; ESC; TIMER] _ _).
  - discriminate.
  - exists cube, (mkAnimData None). split; reflexivity.
Defined.

(** ** Complete runs, by branch *)

Lemma range_queue_length (a : Action) :
  well_formed a ->
  Z.of_nat (List.length (queue_of false a)) = interval_count a + 1.
Proof.
  intros H. unfold queue_of, interval_count, frame_count.
  cbn [andb fst]. rewrite py_range_length.
  pose proof (floor_le_ceiling _ _ H). lia.
Qed.

Lemma range_queues_length (l : list Action) :
  Forall well_formed l ->
  Z.of_nat (List.length (flat_map (queue_of false) l))
  = sum_Z (map interval_count l) + Z.of_nat (List.length l).
Proof.
  induction 1 as [|a l Ha Hl IH].
  - reflexivity.
  - cbn [flat_map map List.length]. rewrite length_app, Nat2Z.inj_add.
    rewrite (range_queue_length a Ha), IH.
    unfold sum_Z. cbn [fold_right]. lia.
Qed.

(** X18: with [onlyRenderMarkedFrames] off and every interval with start <=
    end, a complete run renders one tile more per action than the cumulative
    frame count records: the number of tiles rendered is the final count,
    which is the end of the last descriptor, plus the number of actions. *)
Theorem range_run_tiles_exceed_count (w0 : World) :
  data_actions w0 <> [] ->
  target_ready w0 ->
  onlyRenderMarkedFrames (props w0) = false ->
  Forall well_formed (data_actions w0) ->
  exists w1 n trace wf,
    invoke w0 = Ok RUNNING_MODAL w1
    /\ ticks n w1 = Ok trace wf
    /\ _action_index (self wf) = List.length (data_actions w0)
    /\ Z.of_nat (List.length (rendered (log wf)))
       = Z.of_nat (List.length (rendered (log w0)))
         + _global_frame_end (self wf)
         + Z.of_nat (List.length (data_actions w0)).
Proof.
  intros Hne Hready Hflag Hwf.
  destruct (run_to_done w0 Hne Hready) as (w1 & wf & Hi & Ht & []).
  exists w1. do 2 eexists. exists wf.
  split; [exact Hi|]. split; [exact Ht|]. split; [exact done_index0|].
  rewrite done_rendered0, done_total0, Hflag, length_app, Nat2Z.inj_add.
  rewrite (range_queues_length _ Hwf). lia.
Qed.

Lemma range_run_tiles_exceed_count_witness :
  exists w1 n trace wf,
    invoke (scene [action_A; action_B] false) = Ok RUNNING_MODAL w1
    /\ ticks n w1 = Ok trace wf
    /\ _action_index (self wf) = 2%nat
    /\ Z.of_nat (List.length (rendered (log wf)))
       = 0 + _global_frame_end (self wf) + 2.
Proof.
  refine (range_run_tiles_exceed_count (scene [action_A; action_B] false)
            _ _ eq_refl _).
  - discriminate.
  - exists cube, (mkAnimData None). split; reflexivity.
  - repeat constructor; discriminate.
Defined.

Lemma marked_queues (l : list Action) :
  Forall (fun a => pose_markers a <> []) l ->
  flat_map (queue_of true) l
  = flat_map (fun a => map frame (pose_markers a)) l.
Proof.
  induction 1 as [|a l Ha Hl IH]; [reflexivity|].
  cbn [flat_map]. rewrite IH. f_equal.
  unfold queue_of. destruct (pose_markers a); [contradiction|reflexivity].
Qed.

(** X19: with [onlyRenderMarkedFrames] set and at least one pose marker on
    every action, a complete run renders exactly the marker frames, action
    by action and in the order of the markers, whatever the intervals are. *)
Theorem marked_run_renders_markers (w0 : World) :
  data_actions w0 <> [] ->
  target_ready w0 ->
  onlyRenderMarkedFrames (props w0) = true ->
  Forall (fun a => pose_markers a <> []) (data_actions w0) ->
  exists w1 n trace wf,
    invoke w0 = Ok RUNNING_MODAL w1
    /\ ticks n w1 = Ok trace wf
    /\ _action_index (self wf) = List.length (data_actions w0)
    /\ rendered (log wf)
       = rendered (log w0)
         ++ flat_map (fun a => map frame (pose_markers a)) (data_actions w0).
Proof.
  intros Hne Hready Hflag Hm.
  destruct (run_to_done w0 Hne Hready) as (w1 & wf & Hi & Ht & []).
  exists w1. do 2 eexists. exists wf.
  split; [exact Hi|]. split; [exact Ht|]. split; [exact done_index0|].
  now rewrite done_rendered0, Hflag, (marked_queues _ Hm).
Qed.

Lemma marked_run_renders_markers_witness :
  exists w1 n trace wf,
    invoke (scene [wave; wave] true) = Ok RUNNING_MODAL w1
    /\ ticks n w1 = Ok trace wf
    /\ _action_index (self wf) = 2%nat
    /\ rendered (log wf) = [] ++ [7; 3; 12; 7; 3; 12].
Proof.
  refine (marked_run_renders_markers (scene [wave; wave] true)
            _ _ eq_refl _).
  - discriminate.
  - exists cube, (mkAnimData None). split; reflexivity.
  - repeat constructor; discriminate.
Defined.

(** ** What a complete run hands over *)

Lemma written_app (l1 l2 : list Effect) :
  written (l1 ++ l2) = written l1 ++ written l2.
Proof. apply flat_map_app. Qed.

Lemma assembled_app (l1 l2 : list Effect) :
  assembled (l1 ++ l2) = assembled l1 ++ assembled l2.
Proof. apply flat_map_app. Qed.

Lemma handoffs_written (l : list Effect) :
  handoffs l = map snd (written l).
Proof.
  induction l as [|e l IH]; [reflexivity|].
  change (e :: l) with ([e] ++ l).
  rewrite handoffs_app, written_app, map_app, IH.
  now destruct e.
Qed.

(** [Settings] reads the properties, the platform and the effect log, and of
    the log only what was written and assembled. *)
Lemma settings_ext (name0 : string) (w0 w w' : World) :
  props w' = props w ->
  platform_sys w' = platform_sys w ->
  written (log w') = written (log w) ->
  assembled (log w') = assembled (log w) ->
  Settings name0 w0 w -> Settings name0 w0 w'.
Proof.
  intros Hp Hpl Hw Ha []. constructor; rewrite ?Hp, ?Hpl, ?Hw, ?Ha; assumption.
Qed.

Lemma settings_redraw (name0 : string) (w0 w : World) :
  Settings name0 w0 w -> Settings name0 w0 (redraw w).
Proof.
  apply settings_ext; unfold redraw; destruct (area w); try reflexivity;
    cbn [emit log]; rewrite ?written_app, ?assembled_app; apply app_nil_r.
Qed.

Lemma settings_setup (name0 : string) (w0 w : World) (a : Action)
    (o : Object3D) (i : nat) :
  target (props w) = Some o ->
  Settings name0 w0 w ->
  Settings name0 w0 (after_setup a o (set_self (with_action_index i) w)).
Proof.
  intros Ho []. destruct st_target0 as (o' & Ho' & Hname).
  assert (o' = o) by congruence. subst o'.
  constructor; unfold after_setup; step_fields; try assumption.
  eexists. split; [reflexivity|exact Hname].
Qed.

Lemma settings_step (name0 : string) (w0 w w1 : World) :
  process_step w = Ok tt w1 -> Settings name0 w0 w -> Settings name0 w0 w1.
Proof.
  intros H Hs.
  destruct (process_step_inv _ _ H)
    as [(f & _ & ->)
       | (_ & [(a & o & ad & _ & Ho & _ & ->) | (_ & ->)])].
  - revert Hs. apply settings_ext; unfold after_render; step_fields;
      rewrite ?written_app, ?assembled_app; try reflexivity; apply app_nil_r.
  - now apply settings_setup.
  - revert Hs. apply settings_ext; reflexivity.
Qed.

Lemma settings_finish (name0 : string) (w0 w : World) (o : Object3D) :
  target (props w) = Some o ->
  Settings name0 w0 w -> Settings name0 w0 (after_finish o w).
Proof.
  intros Ho []. destruct st_target0 as (o' & Ho' & Hname).
  assert (o' = o) by congruence. subst o'.
  destruct st_effects0 as (nw & na & Hw & Ha & Hfw & Hfa & Hlen).
  constructor; unfold after_finish; step_fields; try assumption.
  - now exists o.
  - exists (nw ++ written (finish_log o w)),
      (na ++ assembled (finish_log o w)).
    rewrite written_app, assembled_app, Hw, Ha, <- !app_assoc.
    split; [reflexivity|]. split; [reflexivity|].
    assert (Hfl : written (finish_log o w)
                  = [(outputPath (props w), String.append (obj_name o) ".bss",
                      mkJson (obj_name o) (fst (tileSize (props w)))
                        (snd (tileSize (props w))) (fps (props w))
                        (_animation_descs (self w)))]
                  /\ assembled (finish_log o w)
                     = [(binPath (props w), ASSEMBLER_FILENAME w,
                         outputPath (props w),
                         String.append (obj_name o) ".png")]).
    { unfold finish_log. now destruct (temp_exists w). }
    destruct Hfl as [-> ->].
    split; [|split].
    + apply Forall_app. split; [exact Hfw|]. constructor; [|constructor].
      unfold payload_of. cbn [fst snd info_name tileWidth tileHeight frameRate].
      rewrite st_out0, st_tile0, st_fps0, Hname. repeat split.
    + apply Forall_app. split; [exact Hfa|]. constructor; [|constructor].
      unfold ASSEMBLER_FILENAME.
      now rewrite st_bin0, st_out0, st_platform0, Hname.
    + rewrite !length_app. cbn [List.length]. lia.
Qed.

Lemma settings_modal (name0 : string) (w0 : World) (ev : EventType)
    (w w' : World) (r : OpResult) :
  modal ev w = Ok r w' -> Settings name0 w0 w -> Settings name0 w0 w'.
Proof.
  destruct ev; intros H Hs.
  - rewrite modal_esc in H. inversion H; subst.
    revert Hs. apply settings_ext; step_fields;
      rewrite ?written_app, ?assembled_app; try reflexivity; apply app_nil_r.
  - destruct (modal_timer_inv_world _ _ _ H)
      as (w1 & Hp & [(_ & _ & ->) | (_ & _ & o & Ho & ->)]);
      pose proof (settings_redraw _ _ _ (settings_step _ _ _ _ Hp Hs)) as Hs1.
    + exact Hs1.
    + apply settings_finish; [now rewrite redraw_props|exact Hs1].
  - inversion H; subst. exact Hs.
Qed.

Lemma settings_ticks (name0 : string) (w0 : World) (n : nat) :
  forall (w w' : World) trace,
    ticks n w = Ok trace w' -> Settings name0 w0 w -> Settings name0 w0 w'.
Proof.
  induction n as [|n IH]; intros w w' trace H Hs.
  - inversion H; subst. exact Hs.
  - rewrite ticks_S in H.
    destruct (modal TIMER w) as [r w1|e] eqn:Hm; [|discriminate].
    destruct (ticks n w1) as [rs w2|e] eqn:Hn; [|discriminate].
    inversion H; subst.
    exact (IH _ _ _ Hn (settings_modal _ _ _ _ _ _ Hm Hs)).
Qed.

Lemma settings_invoke (w0 : World) (a : Action) (o : Object3D) :
  Settings (obj_name o) w0 (after_invoke a o w0).
Proof.
  constructor; unfold after_invoke, after_setup; step_fields;
    try reflexivity.
  - eexists. split; reflexivity.
  - exists [], []. rewrite !app_nil_r. repeat split; constructor.
Qed.

(** A complete run, with what it wrote and assembled. *)
Lemma run_handover (w0 : World) (o : Object3D) (ad : AnimData) :
  data_actions w0 <> [] ->
  target (props w0) = Some o ->
  animation_data o = Some ad ->
  exists w1 n trace wf x y,
    invoke w0 = Ok RUNNING_MODAL w1
    /\ ticks n w1 = Ok trace wf
    /\ _action_index (self wf) = List.length (data_actions w0)
    /\ written (log wf) = written (log w0) ++ [x]
    /\ payload_of (obj_name o) w0 x
    /\ animations (snd x) = _animation_descs (self wf)
    /\ assembled (log wf) = assembled (log w0) ++ [y]
    /\ y = (binPath (props w0), ASSEMBLER_FILENAME w0, outputPath (props w0),
            String.append (obj_name o) ".png").
Proof.
  intros Hne Ho Had.
  assert (Hready : target_ready w0) by now exists o, ad.
  destruct (run_to_done w0 Hne Hready) as (w1 & wf & Hi & Ht & []).
  destruct (data_actions w0) as [|a rest] eqn:Hacts; [congruence|].
  pose proof Hi as Hi'.
  rewrite (invoke_started w0 a rest o ad Hacts Ho Had) in Hi'.
  inversion Hi'; subst w1.
  pose proof (settings_ticks _ _ _ _ _ _ Ht (settings_invoke w0 a o)) as [].
  destruct st_effects0 as (nw & na & Hw & Ha & Hfw & Hfa & Hlen).
  destruct done_handoffs0 as (info & Hh & Hinfo).
  rewrite !handoffs_written, Hw, map_app in Hh.
  apply app_inv_head in Hh.
  destruct nw as [|x [|x' nw]]; try discriminate.
  destruct na as [|y [|y' na]]; try discriminate.
  inversion Hh. inversion Hfw; subst. inversion Hfa; subst.
  do 3 eexists. exists wf, x. eexists.
  split; [exact Hi|]. split; [exact Ht|]. split; [exact done_index0|].
  split; [exact Hw|]. split; [assumption|].
  split; [now rewrite Hinfo, done_descs0|].
  split; [exact Ha|reflexivity].
Qed.

(** X20: a complete run writes exactly one .bss file, into the output path
    and named after the target as [invoke] found it; its payload carries that
    name, the tile size and frame rate of the properties, and the operator's
    descriptor list. *)
Theorem complete_run_writes_one_payload (w0 : World) (o : Object3D)
    (ad : AnimData) :
  data_actions w0 <> [] ->
  target (props w0) = Some o ->
  animation_data o = Some ad ->
  exists w1 n trace wf,
    invoke w0 = Ok RUNNING_MODAL w1
    /\ ticks n w1 = Ok trace wf
    /\ _action_index (self wf) = List.length (data_actions w0)
    /\ written (log wf)
       = written (log w0)
         ++ [(outputPath (props w0), String.append (obj_name o) ".bss",
              mkJson (obj_name o) (fst (tileSize (props w0)))
                (snd (tileSize (props w0))) (fps (props w0))
                (_animation_descs (self wf)))].
Proof.
  intros Hne Ho Had.
  destruct (run_handover w0 o ad Hne Ho Had)
    as (w1 & n & trace & wf & x & y & Hi & Ht & Hidx & Hw & Hp & Hd & _).
  exists w1, n, trace, wf.
  split; [exact Hi|]. split; [exact Ht|]. split; [exact Hidx|].
  rewrite Hw. do 2 f_equal.
  destruct x as [[d f] [nm tw th fr an]].
  destruct Hp as (H1 & H2 & H3 & H4 & H5 & H6). cbn in *. congruence.
Qed.

Lemma complete_run_writes_one_payload_witness :
  exists w1 n trace wf,
    invoke (scene [action_A; action_B] false) = Ok RUNNING_MODAL w1
    /\ ticks n w1 = Ok trace wf
    /\ _action_index (self wf) = 2%nat
    /\ written (log wf)
       = [] ++ [("//sprites", "Cube.bss",
                 mkJson "Cube" 64 64 24 (_animation_descs (self wf)))].
Proof.
  refine (complete_run_writes_one_payload (scene [action_A; action_B] false)
            cube (mkAnimData None) _ eq_refl eq_refl).
  discriminate.
Defined.

(** X21: a complete run runs the assembler exactly once: the binary chosen
    for the platform, taken from the bin path, with the output path as root
    and the target's name with ".png" as output. *)
Theorem complete_run_assembles_once (w0 : World) (o : Object3D)
    (ad : AnimData) :
  data_actions w0 <> [] ->
  target (props w0) = Some o ->
  animation_data o = Some ad ->
  exists w1 n trace wf,
    invoke w0 = Ok RUNNING_MODAL w1
    /\ ticks n w1 = Ok trace wf
    /\ _action_index (self wf) = List.length (data_actions w0)
    /\ assembled (log wf)
       = assembled (log w0)
         ++ [(binPath (props w0), ASSEMBLER_FILENAME w0,
              outputPath (props w0), String.append (obj_name o) ".png")].
Proof.
  intros Hne Ho Had.
  destruct (run_handover w0 o ad Hne Ho Had)
    as (w1 & n & trace & wf & x & y & Hi & Ht & Hidx & _ & _ & _ & Ha & ->).
  now exists w1, n, trace, wf.
Qed.

Lemma complete_run_assembles_once_witness :
  exists w1 n trace wf,
    invoke (scene [action_A; action_B] false) = Ok RUNNING_MODAL w1
    /\ ticks n w1 = Ok trace wf
    /\ _action_index (self wf) = 2%nat
    /\ assembled (log wf)
       = [] ++ [("//bin", "assembler_linux", "//sprites", "Cube.png")].
Proof.
  refine (complete_run_assembles_once (scene [action_A; action_B] false)
            cube (mkAnimData None) _ eq_refl eq_refl).
  discriminate.
Defined.

Lemma settings_deliver (name0 : string) (w0 : World) (ev : EventType)
    (w w' : World) r :
  deliver ev w = Ok r w' -> Settings name0 w0 w -> Settings name0 w0 w'.
Proof.
  intros H Hs. destruct (modal_handler (wm w)) eqn:Hh.
  - rewrite (deliver_registered ev w Hh) in H.
    destruct (modal ev w) as [x w1|e] eqn:Hm; [|discriminate].
    pose proof (settings_modal _ _ _ _ _ _ Hm Hs) as Hs1.
    destruct x; inversion H; subst; try exact Hs1;
      revert Hs1; apply settings_ext; reflexivity.
  - rewrite (deliver_unregistered ev w Hh) in H. inversion H; subst.
    exact Hs.
Qed.

Lemma settings_deliver_all (name0 : string) (w0 : World)
    (events : list EventType) :
  forall (w w' : World) rs,
    deliver_all events w = Ok rs w' ->
    Settings name0 w0 w -> Settings name0 w0 w'.
Proof.
  induction events as [|ev events IH]; intros w w' rs H Hs.
  - inversion H; subst. exact Hs.
  - cbn [deliver_all] in H. step_monad in H.
    destruct (deliver ev w) as [r w1|e] eqn:Hdel; [|discriminate].
    destruct (deliver_all events w1) as [rs1 w2|e] eqn:Hall; [|discriminate].
    inversion H; subst.
    exact (IH _ _ _ Hall (settings_deliver _ _ _ _ _ _ Hdel Hs)).
Qed.

(** X22: as long as the action index is below the number of actions, and so
    in every cancelled run, the assembler has not been run and no .bss file
    has been written. *)
Theorem unfinished_run_hands_nothing_over (w0 : World)
    (events : list EventType) :
  data_actions w0 <> [] ->
  target_ready w0 ->
  exists w1 rs w,
    invoke w0 = Ok RUNNING_MODAL w1
    /\ deliver_all events w1 = Ok rs w
    /\ ((_action_index (self w) < List.length (data_actions w0))%nat ->
        written (log w) = written (log w0)
        /\ assembled (log w) = assembled (log w0)).
Proof.
  intros Hne Hready.
  destruct (run_events w0 events Hne Hready) as (w1 & rs & w & Hi & Hd & Hr).
  exists w1, rs, w. split; [exact Hi|]. split; [exact Hd|].
  intros Hlt.
  pose proof (reach_handoffs _ _ _ _ w Hr) as Hh.
  apply Nat.leb_gt in Hlt. rewrite Hlt in Hh. destruct Hh as [Hh _].
  destruct Hready as (o & ad & Ho & Had).
  destruct (data_actions w0) as [|a rest] eqn:Hacts; [congruence|].
  pose proof Hi as Hi'.
  rewrite (invoke_started w0 a rest o ad Hacts Ho Had) in Hi'.
  inversion Hi'; subst w1.
  pose proof (settings_deliver_all _ _ _ _ _ _ Hd (settings_invoke w0 a o))
    as [].
  destruct st_effects0 as (nw & na & Hw & Ha & _ & _ & Hlen).
  rewrite !handoffs_written, Hw, map_app in Hh.
  rewrite <- (app_nil_r (map snd (written (log w0)))) in Hh at 2.
  apply app_inv_head in Hh.
  destruct nw; [|discriminate]. destruct na; [|discriminate].
  now rewrite Hw, Ha, !app_nil_r.
Qed.

Lemma unfinished_run_hands_nothing_over_witness :
  exists w1 rs w,
    invoke (scene [action_A; action_B] false) = Ok RUNNING_MODAL w1
    /\ deliver_all [TIMER; TIMER; ESC; TIMER] w1 = Ok rs w
    /\ ((_action_index (self w) < 2)%nat ->
        written (log w) = [] /\ assembled (log w) = []).
Proof.
  refine (unfinished_run_hands_nothing_over
            (scene [action_A; action_B] false) [TIMER; TIMER; ESC; TIMER]
            _ _).
  - discriminate.
  - exists cube, (mkAnimData None). split; reflexivity.
Defined.
